(** * WPNet: the wavelet-pyramid denoising training pipeline

    A shallow embedding of
    [research_pipelines/denoising_with_wavelets/pytorch_wavelet_train.py]:
    the Haar wrappers [DWTHaar] and [IWTHaar], the pyramid losses of
    [CustomTrainingPipeline], its train and validation steps, the checkpoint
    selection and the epoch loop [fit].

    Conventions.
    - Python floats and tensor entries are exact rationals ([Qc], canonical
      fractions with Leibniz equality); rounding is not modelled.
    - A tensor of shape (batch, channel, height, width) is a nested list,
      outermost dimension first.
    - A Python exception is a [Raise] in the [result] monad; Python's [None]
      is the [None] of [option].
    - The neural network, autograd, the optimizer and the scoring libraries
      are fields of the class [Pipeline], next to the attributes that
      [__init__] sets once.
    - Drawing (visdom, tqdm) is left out. *)

From Stdlib Require Import QArith Qcanon Lqa.
From stdpp Require Import gmap strings list numbers.

Local Open Scope Qc_scope.

(** ** Scalars *)

(** A decimal literal of the source, read as an exact fraction. *)
Definition lit (q : Q) : Qc := Q2Qc q.

(** ** Exceptions *)

Inductive exn : Set :=
| ShapeError
| TypeError
| ValueError
| IndexError
| ZeroDivisionError.

Inductive result (A : Type) : Type :=
| Ok (a : A)
| Raise (e : exn).
Arguments Ok {A} a.
Arguments Raise {A} e.

Global Instance exn_eq_dec : EqDecision exn.
Proof. solve_decision. Defined.
Global Instance result_eq_dec {A} `{EqDecision A} : EqDecision (result A).
Proof. solve_decision. Defined.

Definition is_ok {A} (r : result A) : bool :=
  match r with Ok _ => true | Raise _ => false end.

Global Instance result_ret : MRet result := @Ok.
Global Instance result_bind : MBind result :=
  λ A B f m, match m with Ok a => f a | Raise e => Raise e end.

(** ** Tensors *)

Abbreviation plane := (list (list Qc)).      (* height x width *)
Abbreviation sample := (list (list (list Qc))).   (* channel x height x width *)
Abbreviation tensor := (list (list (list (list Qc)))).  (* batch x channel x height x width *)

(** [x.size(1)] *)
Definition size1 (x : tensor) : nat :=
  match x with [] => 0%nat | s :: _ => length s end.

(** [x[:, a:b]] and [x[:, a:]] *)
Definition slice1 (a b : nat) (x : tensor) : tensor :=
  (λ s, take (b - a) (drop a s)) <$> x.
Definition slice1_from (a : nat) (x : tensor) : tensor := drop a <$> x.

(** [torch.cat(ts, dim=1)]: the channel lists are appended sample by sample. *)
Fixpoint torch_cat1 (ts : list tensor) : tensor :=
  match ts with
  | [] => []
  | [t] => t
  | t :: ts' => zip_with app t (torch_cat1 ts')
  end.

(** [x * k] for a scalar [k] *)
Definition tensor_scale (x : tensor) (k : Qc) : tensor :=
  fmap (M := list) (fmap (M := list) (fmap (M := list) (fmap (M := list) (λ a, a * k)))) x.

(** [l[0::2]] and [l[1::2]] *)
Fixpoint stride0 {A} (l : list A) : list A :=
  match l with
  | [] => []
  | [x] => [x]
  | x :: _ :: t => x :: stride0 t
  end.
Fixpoint stride1 {A} (l : list A) : list A :=
  match l with
  | _ :: y :: t => y :: stride1 t
  | _ => []
  end.

(** The assignment [out[0::2] = a; out[1::2] = b] on a fresh [out]. *)
Fixpoint interleave {A} (a b : list A) : list A :=
  match a, b with
  | x :: a', y :: b' => x :: y :: interleave a' b'
  | _, _ => []
  end.

Fixpoint map4 {A B C D E} (f : A → B → C → D → E)
    (l1 : list A) (l2 : list B) (l3 : list C) (l4 : list D) : list E :=
  match l1, l2, l3, l4 with
  | a :: l1', b :: l2', c :: l3', d :: l4' => f a b c d :: map4 f l1' l2' l3' l4'
  | _, _, _, _ => []
  end.

(** Elementwise combination of four planes of one shape. *)
Definition pointwise4 (f : Qc → Qc → Qc → Qc → Qc) (a b c d : plane) : plane :=
  map4 (map4 f) a b c d.

(** Shapes, as predicates on nested lists. *)
Definition plane_shape (h w : nat) (p : plane) : Prop :=
  length p = h ∧ Forall (λ r, length r = w) p.
Definition sample_shape (c h w : nat) (s : sample) : Prop :=
  length s = c ∧ Forall (plane_shape h w) s.
Definition tensor_shape (b c h w : nat) (x : tensor) : Prop :=
  length x = b ∧ Forall (sample_shape c h w) x.

Definition const_plane (h w : nat) (v : Qc) : plane := replicate h (replicate w v).
Definition const_tensor (b c h w : nat) (v : Qc) : tensor :=
  replicate b (replicate c (const_plane h w v)).

(** ** The Haar transform pair ([utils.haar_utils]) *)

(** Modelled from the spec: [utils/haar_utils.py] ([HaarForward],
    [HaarInverse]) is not among the sources. The spec describes a 2D Haar
    transform to four sub-bands of half the height and width, which is
    energy preserving (each 2x2 block is combined with weights of magnitude
    1/2), whose inverse is its exact algebraic inverse and halves the
    magnitude of a constant approximation band; odd dimensions and
    mismatched sub-band shapes are a [ShapeError]. *)
Definition haar_alpha : Qc := 1 / 2.

Definition x00 (x : plane) : plane := stride0 <$> stride0 x.   (* x[0::2, 0::2] *)
Definition x01 (x : plane) : plane := stride1 <$> stride0 x.   (* x[0::2, 1::2] *)
Definition x10 (x : plane) : plane := stride0 <$> stride1 x.   (* x[1::2, 0::2] *)
Definition x11 (x : plane) : plane := stride1 <$> stride1 x.   (* x[1::2, 1::2] *)

Definition mix_pppp (a b c d : Qc) : Qc := haar_alpha * (a + b + c + d).
Definition mix_ppmm (a b c d : Qc) : Qc := haar_alpha * (a + b - c - d).
Definition mix_pmpm (a b c d : Qc) : Qc := haar_alpha * (a - b + c - d).
Definition mix_pmmp (a b c d : Qc) : Qc := haar_alpha * (a - b - c + d).

Definition haar_band (f : Qc → Qc → Qc → Qc → Qc) (x : plane) : plane :=
  pointwise4 f (x00 x) (x01 x) (x10 x) (x11 x).

Definition even_plane (x : plane) : bool :=
  Nat.even (length x) && forallb (λ r, Nat.even (length r)) x.

Definition haar_forward_sample (s : sample) : sample :=
  (haar_band mix_pppp <$> s) ++ (haar_band mix_ppmm <$> s)
    ++ (haar_band mix_pmpm <$> s) ++ (haar_band mix_pmmp <$> s).

(** Modelled from the spec: [HaarForward] of [utils/haar_utils.py], the four
    sub-bands of every channel concatenated along the channel axis, all
    approximation bands first; a [ShapeError] on an odd height or width. *)
Definition HaarForward (x : tensor) : result tensor :=
  if forallb (forallb even_plane) x
  then Ok (haar_forward_sample <$> x)
  else Raise ShapeError.

Definition haar_unblock (ll lh hl hh : plane) : plane :=
  interleave
    (zip_with interleave (pointwise4 mix_pppp ll lh hl hh) (pointwise4 mix_ppmm ll lh hl hh))
    (zip_with interleave (pointwise4 mix_pmpm ll lh hl hh) (pointwise4 mix_pmmp ll lh hl hh)).

Definition row_lengths (s : sample) : list (list nat) := fmap (M := list) length <$> s.

Definition haar_inverse_sample (c : nat) (s : sample) : result sample :=
  let f i := take c (drop (c * i) s) in
  if decide (length s = (4 * c)%nat
             ∧ row_lengths (f 1%nat) = row_lengths (f 0%nat)
             ∧ row_lengths (f 2%nat) = row_lengths (f 0%nat)
             ∧ row_lengths (f 3%nat) = row_lengths (f 0%nat))
  then Ok (map4 haar_unblock (f 0%nat) (f 1%nat) (f 2%nat) (f 3%nat))
  else Raise ShapeError.

Fixpoint mapM_result {A B} (f : A → result B) (l : list A) : result (list B) :=
  match l with
  | [] => Ok []
  | a :: l' => b ← f a; bs ← mapM_result f l'; Ok (b :: bs)
  end.

(** Modelled from the spec: [HaarInverse] of [utils/haar_utils.py], on the
    four groups of channels of its input; a [ShapeError] when the channels
    do not split in four or the groups differ in shape. *)
Definition HaarInverse (x : tensor) : result tensor :=
  mapM_result (haar_inverse_sample (size1 x `div` 4)) x.

(** ** [DWTHaar] and [IWTHaar] *)

(** [DWTHaar.forward] *)
Definition DWTHaar_forward (x : tensor) : result (tensor * tensor * tensor * tensor) :=
  out ← HaarForward x;
  let step := (size1 out `div` 4)%nat in
  let ll := slice1 0 step out in
  let lh := slice1 step (step * 2) out in
  let hl := slice1 (step * 2) (step * 3) out in
  let hh := slice1_from (step * 3) out in
  Ok (ll, lh, hl, hh).

(** [IWTHaar.forward] *)
Definition IWTHaar_forward (ll lh hl hh : tensor) : result tensor :=
  HaarInverse (torch_cat1 [ll; lh; hl; hh]).

(** The sub-band [f] of every plane of [x]. *)
Definition band_tensor (f : Qc → Qc → Qc → Qc → Qc) (x : tensor) : tensor :=
  fmap (M := list) (haar_band f) <$> x.

(** ** Scoring functions of torch *)

Definition of_nat (n : nat) : Qc := Qc_of_Z (Z.of_nat n).

(** [abs] *)
Definition Qc_abs (x : Qc) : Qc := if decide (0 ≤ x) then x else - x.

Definition entries (x : tensor) : list Qc := concat (concat (concat x)).
Definition sum_list (l : list Qc) : Qc := foldr Qcplus 0 l.
Definition mean (l : list Qc) : Qc := sum_list l / of_nat (length l).

(** [torch.nn.SmoothL1Loss()] with its defaults, [beta = 1.0] and the mean
    over all entries, on two tensors of one shape (broadcasting is not
    modelled). *)
Definition smooth_l1 (d : Qc) : Qc :=
  if decide (Qc_abs d < 1) then lit 0.5 * d * d else Qc_abs d - lit 0.5.
Definition SmoothL1Loss (input target : tensor) : Qc :=
  mean (zip_with (λ a b, smooth_l1 (a - b)) (entries input) (entries target)).

(** [(x - y).abs().max()], the largest absolute difference of two tensors. *)
Definition Qc_max (a b : Qc) : Qc := if decide (a ≤ b) then b else a.
Definition max_abs_diff (x y : tensor) : Qc :=
  foldr Qc_max 0 (zip_with (λ a b, Qc_abs (a - b)) (entries x) (entries y)).

(** [torch.nn.functional.l1_loss] *)
Definition l1_loss (input target : tensor) : Qc :=
  mean (zip_with (λ a b, Qc_abs (a - b)) (entries input) (entries target)).

(** Python's [a / b] on numbers. *)
Definition truediv (a b : Qc) : result Qc :=
  if decide (b = 0) then Raise ZeroDivisionError else Ok (a / b).

(** ** The pyramid loss *)

(** [_add_loss] *)
Definition _add_loss (loss1 : option Qc) (loss2 : Qc) : Qc :=
  match loss1 with
  | None => loss2
  | Some loss1 => loss1 + loss2
  end.

(** The [for] loop of [_compute_wavelets_loss], from level [i] on. *)
Fixpoint wavelets_loss_loop (pred_wavelets_pyramid : list tensor) (gt_d0_ll : tensor)
    (_loss : option Qc) (_loss_scale factor : Qc) : result (option Qc) :=
  match pred_wavelets_pyramid with
  | [] => Ok _loss
  | pred_level :: rest =>
      '(gt_ll, gt_lh, gt_hl, gt_hh) ← DWTHaar_forward gt_d0_ll;
      let gt_wavelets := torch_cat1 [gt_lh; gt_hl; gt_hh] in
      let _loss :=
        _add_loss _loss (SmoothL1Loss (slice1_from 3 pred_level) gt_wavelets) * _loss_scale in
      wavelets_loss_loop rest gt_ll (Some _loss) (_loss_scale * factor) factor
  end.

(** [_compute_wavelets_loss] *)
Definition _compute_wavelets_loss (pred_wavelets_pyramid : list tensor) (gt_image : tensor)
    (factor : Qc) : result (option Qc) :=
  wavelets_loss_loop pred_wavelets_pyramid gt_image None 1 factor.

(** The [for] loop of [_compute_adversarial_loss]; [adverserial_losses] is the
    attribute of that name, one scoring function per level. *)
Fixpoint adversarial_loss_loop (adverserial_losses : list (tensor → tensor → Qc))
    (pred_wavelets_pyramid : list tensor) (gt_d0_ll : tensor)
    (_loss _loss_scale factor : Qc) {struct pred_wavelets_pyramid} : result Qc :=
  match pred_wavelets_pyramid with
  | [] => Ok _loss
  | pred_level :: rest =>
      '(gt_ll, gt_lh, gt_hl, gt_hh) ← DWTHaar_forward gt_d0_ll;
      match adverserial_losses with
      | [] => Raise IndexError
      | target_loss_function :: later =>
          let gt_wavelets := torch_cat1 [gt_lh; gt_hl; gt_hh] in
          let _loss :=
            _loss + target_loss_function (slice1_from 3 pred_level) gt_wavelets * _loss_scale in
          adversarial_loss_loop later rest gt_ll _loss (_loss_scale * factor) factor
      end
  end.

(** [_compute_adversarial_loss] *)
Definition _compute_adversarial_loss (adverserial_losses : list (tensor → tensor → Qc))
    (pred_wavelets_pyramid : list tensor) (gt_image : tensor) (factor : Qc) : result Qc :=
  adversarial_loss_loop adverserial_losses pred_wavelets_pyramid gt_image 0 1 factor.

(** The per-level detail losses that [_compute_wavelets_loss] scores: level
    [i] compares the detail bands of the [i] times decomposed ground truth
    with the detail channels of the predicted level [i]. *)
Fixpoint level_losses (pred_wavelets_pyramid : list tensor) (gt_d0_ll : tensor)
    : result (list Qc) :=
  match pred_wavelets_pyramid with
  | [] => Ok []
  | pred_level :: rest =>
      '(gt_ll, gt_lh, gt_hl, gt_hh) ← DWTHaar_forward gt_d0_ll;
      ls ← level_losses rest gt_ll;
      Ok (SmoothL1Loss (slice1_from 3 pred_level) (torch_cat1 [gt_lh; gt_hl; gt_hh]) :: ls)
  end.

(** The weighted sum of the spec: the loss of level [i] times [factor ^ i],
    summed over the levels. *)
Definition weighted_sum (factor : Qc) (ls : list Qc) : Qc :=
  sum_list (imap (λ i l, l * factor ^ i) ls).

(** The same sum built level by level, as the loop of
    [_compute_adversarial_loss] builds it: each loss times the current
    scale, the scale times [factor] from one level to the next. *)
Fixpoint weighted_from (factor scale : Qc) (ls : list Qc) : Qc :=
  match ls with
  | [] => 0
  | l :: ls' => l * scale + weighted_from factor (scale * factor) ls'
  end.

(** The arithmetic of the loop of [_compute_wavelets_loss] on the per-level
    losses. *)
Fixpoint accumulate (factor scale : Qc) (acc : option Qc) (ls : list Qc) : option Qc :=
  match ls with
  | [] => acc
  | l :: ls' => accumulate factor (scale * factor) (Some (_add_loss acc l * scale)) ls'
  end.

(** ** The deep inverse reconstruction *)

(** [_, lh, hl, hh = torch.split(x, 3, dim=1)]: chunks of three channels,
    the last one shorter when the count is no multiple of three; exactly
    four chunks are unpacked. *)
Definition torch_split3_unpack4 (x : tensor) : result (tensor * tensor * tensor * tensor) :=
  if decide (10 ≤ size1 x ≤ 12)%nat
  then Ok (slice1 0 3 x, slice1 3 6 x, slice1 6 9 x, slice1_from 9 x)
  else Raise ValueError.

(** The [for] loop of [_compute_deep_iwt_loss] over the levels from the
    deepest up. *)
Fixpoint deep_iwt_loop (levels_deepest_first : list tensor) (composed_image : tensor)
    : result tensor :=
  match levels_deepest_first with
  | [] => Ok composed_image
  | pred_level :: rest =>
      '(_, lh, hl, hh) ← torch_split3_unpack4 pred_level;
      y ← IWTHaar_forward composed_image lh hl hh;
      deep_iwt_loop rest (tensor_scale y 2)
  end.

(** [_compute_deep_iwt_loss] up to the image it scores. *)
Definition deep_iwt_composed_image (pred_wavelets_pyramid : list tensor) : result tensor :=
  match reverse pred_wavelets_pyramid with
  | [] => Raise IndexError
  | deepest :: _ => deep_iwt_loop (reverse pred_wavelets_pyramid) (slice1 0 3 deepest)
  end.

(** A pyramid level of [b] samples and 12 channels of [h] x [w]: the
    approximation channels [approx] followed by nine zero detail channels. *)
Definition level_zero_details (b h w : nat) (approx : tensor) : tensor :=
  torch_cat1 [approx; const_tensor b 9 h w 0].

(** Levels with zero detail bands, listed from the deepest up: each level is
    twice as high and wide as the one before it. *)
Inductive zero_details (b : nat) : nat → nat → list tensor → Prop :=
| zero_details_nil h w : zero_details b h w []
| zero_details_cons h w approx finer :
    tensor_shape b 3 h w approx →
    zero_details b (2 * h) (2 * w) finer →
    zero_details b h w (level_zero_details b h w approx :: finer).

(** A pyramid, finest level first, with zero detail bands throughout and the
    constant [v] as the approximation band of its deepest level, which is
    [h] x [w]. *)
Definition flat_pyramid (b h w : nat) (v : Qc) (pyr : list tensor) : Prop :=
  ∃ finer, reverse pyr = level_zero_details b h w (const_tensor b 3 h w v) :: finer
           ∧ zero_details b (2 * h) (2 * w) finer.

(** ** [CustomTrainingPipeline] *)

(** [torch.optim.lr_scheduler.MultiStepLR]: at each [step] the epoch counter
    advances, and the learning rate is multiplied by [gamma] once for every
    occurrence of the new counter among the milestones. *)
Record MultiStepLR : Type := mkMultiStepLR {
  milestones : list nat;
  gamma : Qc;
  last_epoch : nat;
}.

Definition MultiStepLR_step (s : MultiStepLR) (lr : Qc) : MultiStepLR * Qc :=
  let e := S (last_epoch s) in
  (mkMultiStepLR (milestones s) (gamma s) e,
   if decide (e ∈ milestones s)
   then lr * gamma s ^ count_occ Nat.eq_dec (milestones s) e
   else lr).

(** The terms a step can score, and what a step does that is visible from
    outside. *)
Inductive loss_term : Set := PixelLoss | WaveletPyramidLoss | DeepInverseLoss.

Inductive event : Type :=
| ModelTrain
| ModelEval
| ZeroGrad
| Forward
| Scored (term : loss_term) (value : Qc)
| Backward (total_loss : Qc)
| ClipGradNorm (max_norm : Qc)
| OptimizerStep
| SchedulerStep
| ImageSave (path : string)
| TorchSave (path : string) (epoch : nat) (acc : Qc).

Global Instance loss_term_eq_dec : EqDecision loss_term.
Proof. solve_decision. Defined.
Global Instance event_eq_dec : EqDecision event.
Proof. solve_decision. Defined.

(** The collaborators of the pipeline and the attributes that [__init__]
    sets once. [model training p x] is the forward pass of the network with
    parameters [p] in train or eval mode, returning the restored image, the
    wavelet pyramid and the attention maps; [autograd f p g] is
    [backward()] on the loss [f] seen as a function of the parameters,
    accumulated onto the gradients [g]. *)
Class Pipeline : Type := {
  Params : Type;
  Grads : Type;
  OptimState : Type;
  model : bool → Params → tensor → tensor * list tensor * list tensor;
  ms_ssim : tensor → tensor → Qc;
  perceptual_loss : option (tensor → tensor → Qc);
  accuracy_measure : tensor → tensor → Qc;
  denoise_inference : Params → sample → nat → nat → nat → sample;
  no_grads : Grads;
  autograd : (Params → result Qc) → Params → Grads → Grads;
  clip_grad_norm_ : Grads → Qc → Grads;
  optimizer_step : Qc → OptimState → Params → Grads → OptimState * Params;
  checkpoints_dir : string;
  output_val_images_dir : string;
  batch_size : nat;
  epochs : nat;
  resume_epoch : nat;
  stop_criteria : Qc;
  image_shape : nat * nat;
  train_dataloader : nat → list (tensor * tensor);
  val_dataset : option (list (sample * sample * string));
}.

(** The record that [torch.save] writes. *)
Record checkpoint `{Pipeline} : Type := mkCheckpoint {
  ck_model : Params;
  ck_optimizer : OptimState * Qc;
  ck_acc : Qc;
  ck_epoch : nat;
}.
Arguments mkCheckpoint {_} _ _ _ _.

(** What the pipeline mutates: the network and its mode, the optimizer with
    its learning rate, the scheduler, the best score, the checkpoint files. *)
Record state `{Pipeline} : Type := mkState {
  params : Params;
  training : bool;
  grads : Grads;
  optim_state : OptimState;
  lr : Qc;
  scheduler : option MultiStepLR;
  best_test_score : Qc;
  files : gmap string checkpoint;
  log : list event;
}.
Arguments mkState {_} _ _ _ _ _ _ _ _ _.

Section Steps.
Context `{Pipeline}.

Definition emit (evs : list event) (st : state) : state :=
  mkState (params st) (training st) (grads st) (optim_state st) (lr st)
          (scheduler st) (best_test_score st) (files st) (log st ++ evs).

(** [self.model.train()] and [self.model.eval()] *)
Definition model_train (st : state) : state :=
  mkState (params st) true (grads st) (optim_state st) (lr st)
          (scheduler st) (best_test_score st) (files st) (log st ++ [ModelTrain]).
Definition model_eval (st : state) : state :=
  mkState (params st) false (grads st) (optim_state st) (lr st)
          (scheduler st) (best_test_score st) (files st) (log st ++ [ModelEval]).

(** [self.optimizer.zero_grad()] *)
Definition zero_grad (st : state) : state :=
  mkState (params st) (training st) no_grads (optim_state st) (lr st)
          (scheduler st) (best_test_score st) (files st) (log st ++ [ZeroGrad]).

(** [total_loss.backward()] *)
Definition backward (total_loss_of : Params → result Qc) (total_loss : Qc) (st : state)
    : state :=
  mkState (params st) (training st) (autograd total_loss_of (params st) (grads st))
          (optim_state st) (lr st)
          (scheduler st) (best_test_score st) (files st) (log st ++ [Backward total_loss]).

(** [torch.nn.utils.clip_grad_norm_(self.model.parameters(), max_norm)] *)
Definition clip_grads (max_norm : Qc) (st : state) : state :=
  mkState (params st) (training st) (clip_grad_norm_ (grads st) max_norm)
          (optim_state st) (lr st)
          (scheduler st) (best_test_score st) (files st) (log st ++ [ClipGradNorm max_norm]).

(** [self.optimizer.step()] *)
Definition optimizer_do_step (st : state) : state :=
  let '(o, p) := optimizer_step (lr st) (optim_state st) (params st) (grads st) in
  mkState p (training st) (grads st) o (lr st)
          (scheduler st) (best_test_score st) (files st) (log st ++ [OptimizerStep]).

(** [self.scheduler.step()] *)
Definition scheduler_do_step (s : MultiStepLR) (st : state) : state :=
  let '(s', lr') := MultiStepLR_step s (lr st) in
  mkState (params st) (training st) (grads st) (optim_state st) lr'
          (Some s') (best_test_score st) (files st) (log st ++ [SchedulerStep]).

(** [MIXLoss.forward], the [images_criterion] *)
Definition MIXLoss_forward (x y : tensor) : Qc :=
  (1 - ms_ssim x y) * (1 - lit 0.84) + l1_loss x y * lit 0.84.

Definition images_criterion : tensor → tensor → Qc := MIXLoss_forward.

(** [get_lr] *)
Definition get_lr (st : state) : Qc := lr st.

(** [_compute_deep_iwt_loss] *)
Definition _compute_deep_iwt_loss (pred_wavelets_pyramid : list tensor) (gt_image : tensor)
    : result Qc :=
  composed_image ← deep_iwt_composed_image pred_wavelets_pyramid;
  Ok (images_criterion composed_image gt_image).

(** The pixel loss of both steps: the image criterion, averaged with the
    perceptual loss when there is one. *)
Definition pixel_loss (pred_image clear_image : tensor) : Qc :=
  let loss := images_criterion pred_image clear_image in
  match perceptual_loss with
  | Some perceptual => loss / 2 + perceptual pred_image clear_image / 2
  | None => loss
  end.

(** The losses of one training batch as a function of the parameters:
    [loss], [wloss] and [total_loss]. *)
Definition batch_losses (mode : bool) (noisy_image clear_image : tensor) (p : Params)
    : result (Qc * Qc * Qc) :=
  let output := model mode p noisy_image in
  let pred_image := output.1.1 in
  let pred_wavelets_pyramid := output.1.2 in
  let loss := pixel_loss pred_image clear_image in
  wloss ← _compute_wavelets_loss pred_wavelets_pyramid clear_image 1;
  match wloss with
  | None => Raise TypeError
  | Some wloss => Ok (loss, wloss, loss + wloss * lit 0.2)
  end.

Definition total_loss_of (mode : bool) (noisy_image clear_image : tensor) (p : Params)
    : result Qc :=
  l ← batch_losses mode noisy_image clear_image p; Ok l.2.

(** The body of the batch loop of [_train_step]; [n] is
    [len(self.train_dataloader)]. *)
Definition train_batch (n : nat) (acc : state * Qc) (batch : tensor * tensor)
    : result (state * Qc) :=
  let '(st, avg_epoch_loss) := acc in
  let '(noisy_image, clear_image) := batch in
  let st := zero_grad st in
  '(loss, wloss, total_loss) ←
    batch_losses (training st) noisy_image clear_image (params st);
  let st := emit [Forward; Scored PixelLoss loss; Scored WaveletPyramidLoss wloss] st in
  let st := backward (total_loss_of (training st) noisy_image clear_image) total_loss st in
  let st := clip_grads 2 st in
  let st := optimizer_do_step st in
  share ← truediv loss (of_nat n);
  Ok (st, avg_epoch_loss + share).

Fixpoint train_loop (n : nat) (batches : list (tensor * tensor)) (acc : state * Qc)
    : result (state * Qc) :=
  match batches with
  | [] => Ok acc
  | batch :: rest => acc' ← train_batch n acc batch; train_loop n rest acc'
  end.

(** [_train_step] *)
Definition _train_step (epoch : nat) (st : state) : result (Qc * state) :=
  let st := model_train st in
  let batches := train_dataloader epoch in
  '(st, avg_epoch_loss) ← train_loop (length batches) batches (st, 0);
  Ok (avg_epoch_loss, st).

(** The body of the sample loop of [_validation_step]. *)
Definition validation_sample (acc : state * (Qc * Qc * nat))
    (item : sample * sample * string) : state * (Qc * Qc * nat) :=
  let '(st, (avg_acc_rate, avg_loss_rate, test_len)) := acc in
  let '(noisy_image, clear_image, image_name) := item in
  let restored_image :=
    [denoise_inference (params st) noisy_image
       (image_shape.1) batch_size (image_shape.1 `div` 32)] in
  let loss := pixel_loss restored_image [clear_image] in
  let acc_rate := accuracy_measure restored_image [clear_image] in
  (emit [ImageSave (output_val_images_dir +:+ image_name)] st,
   (avg_acc_rate + acc_rate, avg_loss_rate + loss, S test_len)).

(** [_validation_step] *)
Definition _validation_step (st : state) : result (Qc * Qc * state) :=
  let st := model_eval st in
  let '(st, (avg_acc_rate, avg_loss_rate, test_len)) :=
    match val_dataset with
    | Some items => foldl validation_sample (st, (0, 0, 0%nat)) items
    | None => (st, (0, 0, 0%nat))
    end in
  '(avg_acc_rate, avg_loss_rate) ←
    (if decide (0 < test_len)%nat
     then a ← truediv avg_acc_rate (of_nat test_len);
          l ← truediv avg_loss_rate (of_nat test_len);
          Ok (a, l)
     else Ok (avg_acc_rate, avg_loss_rate));
  let st :=
    match scheduler st with
    | Some s => scheduler_do_step s st
    | None => st
    end in
  Ok (avg_loss_rate, avg_acc_rate, st).

Definition best_model_path : string := checkpoints_dir +:+ "best.trh".
Definition latest_model_path : string := checkpoints_dir +:+ "last.trh".

(** [torch.save(save_state, path)] *)
Definition torch_save (save_state : checkpoint) (path : string) (st : state) : state :=
  mkState (params st) (training st) (grads st) (optim_state st) (lr st)
          (scheduler st) (best_test_score st) (<[path := save_state]> (files st))
          (log st ++ [TorchSave path (ck_epoch save_state) (ck_acc save_state)]).

Definition set_best_test_score (v : Qc) (st : state) : state :=
  mkState (params st) (training st) (grads st) (optim_state st) (lr st)
          (scheduler st) v (files st) (log st).

(** [_save_best_checkpoint] *)
Definition _save_best_checkpoint (epoch : nat) (avg_acc_rate : Qc) (st : state) : state :=
  let st := model_eval st in
  let save_state :=
    mkCheckpoint (params st) (optim_state st, lr st) avg_acc_rate epoch in
  let st := torch_save save_state latest_model_path st in
  if decide (best_test_score st - avg_acc_rate < - lit 1e-5)
  then torch_save save_state best_model_path (set_best_test_score avg_acc_rate st)
  else st.

(** [_check_stop_criteria] *)
Definition _check_stop_criteria (st : state) : bool :=
  bool_decide (get_lr st - stop_criteria < - lit 1e-9).

(** One pass through the body of the epoch loop of [fit], up to the stop
    test; [_plot_values] only draws. *)
Definition run_epoch (epoch_num : nat) (st : state) : result state :=
  '(epoch_train_loss, st) ← _train_step epoch_num st;
  '(val_loss, val_acc, st) ← _validation_step st;
  Ok (_save_best_checkpoint epoch_num val_acc st).

(** The test that breaks out of the loop. *)
Definition stop_now (st : state) : bool :=
  bool_decide (is_Some (scheduler st)) && _check_stop_criteria st.

Fixpoint fit_loop (epoch_nums : list nat) (st : state) : result state :=
  match epoch_nums with
  | [] => Ok st
  | epoch_num :: rest =>
      st ← run_epoch epoch_num st;
      if stop_now st then Ok st else fit_loop rest st
  end.

(** [range(self.resume_epoch, self.epochs + 1)] *)
Definition epoch_range : list nat := seq resume_epoch (epochs + 1 - resume_epoch).

(** [fit] *)
Definition fit (st : state) : result state := fit_loop epoch_range st.

(** The epochs of a list run one after the other, with no stop test. *)
Fixpoint run_epochs (epoch_nums : list nat) (st : state) : result state :=
  match epoch_nums with
  | [] => Ok st
  | epoch_num :: rest => st ← run_epoch epoch_num st; run_epochs rest st
  end.
(** The stop test in words: a scheduler is there and the learning rate is
    below the threshold by more than 1e-9. *)
Definition stop_condition (st : state) : Prop :=
  is_Some (scheduler st) ∧ lr st - stop_criteria < - lit 1e-9.

(** [_save_best_checkpoint] at the end of each epoch of a run, given as
    pairs of an epoch and its validation accuracy. *)
Definition save_all (run : list (nat * Qc)) (st : state) : state :=
  foldl (λ s ea, _save_best_checkpoint ea.1 ea.2 s) st run.
End Steps.

(** The epochs that were saved under [path], in order. *)
Definition saved_epochs (path : string) (l : list event) : list nat :=
  omap (λ ev, match ev with
              | TorchSave p e _ => if decide (p = path) then Some e else None
              | _ => None
              end) l.

(** The losses that were handed to [backward], in order. *)
Definition backward_totals (l : list event) : list Qc :=
  omap (λ ev, match ev with Backward t => Some t | _ => None end) l.

(** What a step appended to the log of [st]. *)
Definition new_events `{Pipeline} (st st' : state) : list event :=
  drop (length (log st)) (log st').

Section TrainStepSpec.
Context `{Pipeline}.

(** What one batch with pixel loss [px] and pyramid loss [w] appends to the
    log. *)
Definition batch_events (l : Qc * Qc) : list event :=
  [ZeroGrad; Forward; Scored PixelLoss l.1; Scored WaveletPyramidLoss l.2;
   Backward (l.1 + lit 0.2 * l.2); ClipGradNorm 2; OptimizerStep].

(** The pixel loss and the pyramid loss of every batch of an epoch, each
    computed from the output of the network with the parameters it has when
    the batch comes up. *)
Fixpoint epoch_losses (n : nat) (batches : list (tensor * tensor)) (st : state)
    : list (Qc * Qc) :=
  match batches with
  | [] => []
  | (noisy_image, clear_image) :: rest =>
      let output := model (training st) (params st) noisy_image in
      match _compute_wavelets_loss output.1.2 clear_image 1,
            train_batch n (st, 0) (noisy_image, clear_image) with
      | Ok (Some w), Ok (st', _) =>
          (pixel_loss output.1.1 clear_image, w) :: epoch_losses n rest st'
      | _, _ => []
      end
  end.
End TrainStepSpec.

(** ** Concrete inputs *)

(** A ground truth of one sample, three channels, 8 x 8, all zero, and a
    three-level pyramid whose detail channels are all 3/2: every level is
    off by 3/2 in every detail entry, a smooth-L1 loss of 1 per level. *)
Definition gt_zero8 : tensor := const_tensor 1 3 8 8 0.
Definition level_three_halves (h w : nat) : tensor :=
  torch_cat1 [const_tensor 1 3 h w 0; const_tensor 1 9 h w (lit 1.5)].
Definition pyramid_unit_losses : list tensor :=
  [level_three_halves 4 4; level_three_halves 2 2; level_three_halves 1 1].

(** A two-level pyramid of one sample with zero detail bands: the deepest
    level is 1 x 1 with the approximation band constant [v], the finest is
    2 x 2 with an approximation band that the reconstruction never reads. *)
Definition flat_pyramid2 (v : Qc) : list tensor :=
  [level_zero_details 1 2 2 (const_tensor 1 3 2 2 (lit 7));
   level_zero_details 1 1 1 (const_tensor 1 3 1 1 v)].

(** One sample of two channels, 2 x 4. *)
Definition image_2x4 : tensor :=
  [[ [[lit 1; lit 2; lit 3; lit 4]; [lit 5; lit 6; lit 7; lit 8]];
     [[lit 0.5; lit 0.25; 0; 1]; [1; 1; lit 0.1; lit 0.9]] ]].

(** A stand-in pipeline with one scalar weight [p]: the restored image is
    the input times [p], the pyramid has one level, the Haar transform of
    the restored image; the gradient is a finite difference, clipping caps
    its magnitude and the optimizer is plain gradient descent. The
    structural similarity is the constant 1 and the accuracy is one minus
    the mean absolute error. *)
Definition toy_model (mode : bool) (p : Qc) (x : tensor)
    : tensor * list tensor * list tensor :=
  let y := tensor_scale x p in (y, [haar_forward_sample <$> y], []).

Definition toy_autograd (f : Qc → result Qc) (p g : Qc) : Qc :=
  match f (p + 1), f p with
  | Ok a, Ok b => g + (a - b)
  | _, _ => g
  end.

Definition toy_clip (g max_norm : Qc) : Qc :=
  if decide (max_norm < Qc_abs g) then (if decide (0 ≤ g) then max_norm else - max_norm) else g.

Definition toy_pipeline (perceptual : option (tensor → tensor → Qc))
    (first_epoch n_epochs : nat) (stop : Qc)
    (loader : list (tensor * tensor))
    (val : option (list (sample * sample * string))) : Pipeline :=
  {| Params := Qc;
     Grads := Qc;
     OptimState := unit;
     model := toy_model;
     ms_ssim := λ _ _, 1;
     perceptual_loss := perceptual;
     accuracy_measure := λ x y, 1 - l1_loss x y;
     denoise_inference := λ p x _ _ _, fmap (M := list) (fmap (M := list) (fmap (M := list) (λ a, a * p))) x;
     no_grads := 0;
     autograd := toy_autograd;
     clip_grad_norm_ := toy_clip;
     optimizer_step := λ lr o p g, (o, p - lr * g);
     checkpoints_dir := "exp/checkpoints/";
     output_val_images_dir := "exp/val_outputs/";
     batch_size := 1;
     epochs := n_epochs;
     resume_epoch := first_epoch;
     stop_criteria := stop;
     image_shape := (2%nat, 2%nat);
     train_dataloader := λ _, loader;
     val_dataset := val |}.

Definition toy_state (P : Pipeline) (p0 : @Params P) (o0 : @OptimState P) (g0 : @Grads P)
    (lr0 : Qc) (sched : option MultiStepLR) : @state P :=
  mkState p0 false g0 o0 lr0 sched 0 ∅ [].

(** One sample of three channels, 2 x 2. *)
Definition image_2x2 : tensor :=
  [[ [[lit 0.5; lit 0.25]; [lit 0.75; 1]];
     [[lit 0.5; lit 0.5]; [lit 0.5; lit 0.5]];
     [[0; 1]; [1; 0]] ]].

(** A loader of one batch whose noisy image is already clear, three epochs
    from epoch 1, no validation samples. *)
Definition toy_clean : Pipeline :=
  toy_pipeline None 1 3 (lit 1e-7) [(image_2x2, image_2x2)] (Some []).


(** Five epochs from epoch 1 with the stop threshold 1e-7; the learning rate
    starts at 5e-7 and the scheduler divides it by 10 at its second step. *)
Definition toy_decay : Pipeline :=
  toy_pipeline None 1 5 (lit 1e-7) [(image_2x2, image_2x2)] (Some []).

Definition toy_decay_state : @state toy_decay :=
  toy_state toy_decay 1 () 0 (lit 5e-7) (Some (mkMultiStepLR [2%nat] (lit 0.1) 0)).

(** The state in which [fit] leaves [toy_decay_state]. *)
Definition toy_decay_final : @state toy_decay :=
  match @fit toy_decay toy_decay_state with
  | Ok st => st
  | Raise _ => toy_decay_state
  end.


(** A loader of two batches with noise, a perceptual loss (the mean absolute
    error stands in for it), one epoch. *)
Definition image_2x2_noisy : tensor :=
  [[ [[lit 0.6; lit 0.2]; [lit 0.75; lit 0.9]];
     [[lit 0.5; lit 0.4]; [lit 0.6; lit 0.5]];
     [[lit 0.1; 1]; [lit 0.9; 0]] ]].

Definition toy_noisy : Pipeline :=
  toy_pipeline (Some l1_loss) 1 1 (lit 1e-7)
    [(image_2x2_noisy, image_2x2); (image_2x2, image_2x2_noisy)] (Some []).

Definition toy_noisy_state : @state toy_noisy :=
  toy_state toy_noisy 1 () 0 (lit 0.0001) None.

Definition toy_noisy_trained : Qc * @state toy_noisy :=
  match @_train_step toy_noisy 1 toy_noisy_state with
  | Ok r => r
  | Raise _ => (0, toy_noisy_state)
  end.

(** The pyramid loss of the first batch of [toy_noisy]. *)
Definition toy_noisy_wloss : Qc :=
  match _compute_wavelets_loss (toy_model false 1 image_2x2_noisy).1.2 image_2x2 1 with
  | Ok (Some w) => w
  | _ => 0
  end.

(** The validation accuracies 10.0, 9.9, 10.2, 10.2000001 of the epochs 1
    to 4. *)
Definition accuracy_run : list (nat * Qc) :=
  [(1%nat, lit 10); (2%nat, lit 9.9); (3%nat, lit 10.2); (4%nat, lit 10.2000001)].

(** ** What the loops compute, on the per-level losses *)

(** The power of [factor] that the loop of [_compute_wavelets_loss] has put
    on the loss of level [i] when it leaves a pyramid of [L] levels: the loss
    is multiplied by the scale of its own level and of every later one,
    [i + (i + 1) + ... + (L - 1)] factors in all. *)
Definition scale_exponent (i L : nat) : nat := foldr Nat.add 0%nat (seq i (L - i)).

Definition loop_sum (factor : Qc) (ls : list Qc) : Qc :=
  sum_list (imap (λ i l, l * factor ^ scale_exponent i (length ls)) ls).

(** The per-level scores that [_compute_adversarial_loss] adds up: level [i]
    is scored by [adverserial_losses[i]]. *)
Fixpoint adversarial_level_losses (adverserial_losses : list (tensor → tensor → Qc))
    (pred_wavelets_pyramid : list tensor) (gt_d0_ll : tensor)
    {struct pred_wavelets_pyramid} : result (list Qc) :=
  match pred_wavelets_pyramid with
  | [] => Ok []
  | pred_level :: rest =>
      '(gt_ll, gt_lh, gt_hl, gt_hh) ← DWTHaar_forward gt_d0_ll;
      match adverserial_losses with
      | [] => Raise IndexError
      | target_loss_function :: later =>
          ls ← adversarial_level_losses later rest gt_ll;
          Ok (target_loss_function (slice1_from 3 pred_level)
                (torch_cat1 [gt_lh; gt_hl; gt_hh]) :: ls)
      end
  end.

(** Two levels with the same detail channels [[:, 3:]], and two levels that
    have the same channel count besides. *)
Definition same_details (a b : tensor) : Prop := slice1_from 3 a = slice1_from 3 b.
Definition same_count_and_details (a b : tensor) : Prop :=
  size1 a = size1 b ∧ slice1_from 3 a = slice1_from 3 b.

(** [loop_sum] from level [k] on, in a pyramid of [L] levels. *)
Fixpoint loop_sum_from (factor : Qc) (k L : nat) (ls : list Qc) : Qc :=
  match ls with
  | [] => 0
  | l :: ls' => l * factor ^ scale_exponent k L + loop_sum_from factor (S k) L ls'
  end.

(** The pyramid of [pyramid_unit_losses] with other approximation channels. *)
Definition level_three_halves' (h w : nat) : tensor :=
  torch_cat1 [const_tensor 1 3 h w (lit 5); const_tensor 1 9 h w (lit 1.5)].
Definition pyramid_unit_losses' : list tensor :=
  [level_three_halves' 4 4; level_three_halves' 2 2; level_three_halves' 1 1].

(** [flat_pyramid2] with another approximation band at the finest level. *)
Definition flat_pyramid2' (v : Qc) : list tensor :=
  [level_zero_details 1 2 2 (const_tensor 1 3 2 2 0);
   level_zero_details 1 1 1 (const_tensor 1 3 1 1 v)].

(** ** What the validation step scores *)

Section ValidationSpec.
Context `{Pipeline}.

(** The restored image of a validation sample, with a batch axis, under the
    parameters [p]. *)
Definition val_restored (p : Params) (item : sample * sample * string) : tensor :=
  [denoise_inference p item.1.1 (image_shape.1) batch_size (image_shape.1 `div` 32)].

Definition val_loss (p : Params) (item : sample * sample * string) : Qc :=
  pixel_loss (val_restored p item) [item.1.2].

Definition val_acc (p : Params) (item : sample * sample * string) : Qc :=
  accuracy_measure (val_restored p item) [item.1.2].

Definition val_image_event (item : sample * sample * string) : event :=
  ImageSave (output_val_images_dir +:+ item.2).

(** The samples of the validation dataset, none when it is [None]. *)
Definition val_items : list (sample * sample * string) :=
  match val_dataset with Some items => items | None => [] end.

(** The record under the best path, if any, carries the best score. *)
Definition best_consistent (st : state) : Prop :=
  ∀ ck, files st !! best_model_path = Some ck → ck_acc ck = best_test_score st.
End ValidationSpec.

(** ** More stand-in pipelines *)

Definition toy_with_model
    (m : bool → Qc → tensor → tensor * list tensor * list tensor)
    (loader : list (tensor * tensor))
    (val : option (list (sample * sample * string))) : Pipeline :=
  {| Params := Qc;
     Grads := Qc;
     OptimState := unit;
     model := m;
     ms_ssim := λ _ _, 1;
     perceptual_loss := None;
     accuracy_measure := λ x y, 1 - l1_loss x y;
     denoise_inference := λ p x _ _ _, fmap (M := list) (fmap (M := list) (fmap (M := list) (λ a, a * p))) x;
     no_grads := 0;
     autograd := toy_autograd;
     clip_grad_norm_ := toy_clip;
     optimizer_step := λ lr o p g, (o, p - lr * g);
     checkpoints_dir := "exp/checkpoints/";
     output_val_images_dir := "exp/val_outputs/";
     batch_size := 1;
     epochs := 2;
     resume_epoch := 1;
     stop_criteria := lit 1e-7;
     image_shape := (2%nat, 2%nat);
     train_dataloader := λ _, loader;
     val_dataset := val |}.

(** A network that returns no pyramid level at all. *)
Definition toy_no_pyramid : Pipeline :=
  toy_with_model (λ _ p x, (x, [], [])) [(image_2x2, image_2x2)] (Some []).

(** A network whose weight only sets the approximation channels of its one
    pyramid level. *)
Definition toy_approx : Pipeline :=
  toy_with_model
    (λ _ p x, (x, [torch_cat1 [const_tensor 1 3 1 1 p;
                               slice1_from 3 (haar_forward_sample <$> x)]], []))
    [(image_2x2, image_2x2)] (Some []).

(** Two validation samples, no scheduler. *)
Definition sample_2x2 : sample :=
  [ [[lit 0.5; lit 0.25]; [lit 0.75; 1]];
    [[lit 0.5; lit 0.5]; [lit 0.5; lit 0.5]];
    [[0; 1]; [1; 0]] ].
Definition sample_2x2_noisy : sample :=
  [ [[lit 0.6; lit 0.2]; [lit 0.75; lit 0.9]];
    [[lit 0.5; lit 0.4]; [lit 0.6; lit 0.5]];
    [[lit 0.1; 1]; [lit 0.9; 0]] ].

Definition toy_val_items : list (sample * sample * string) :=
  [(sample_2x2_noisy, sample_2x2, "a.png"); (sample_2x2, sample_2x2, "b.png")].

Definition toy_val : Pipeline :=
  toy_with_model toy_model [(image_2x2_noisy, image_2x2)] (Some toy_val_items).

Definition toy_val_state : @state toy_val :=
  toy_state toy_val 1 () 0 (lit 0.0001) None.

(** A run that is resumed past its last epoch. *)
Definition toy_resumed_late : Pipeline :=
  toy_pipeline None 6 5 (lit 1e-7) [(image_2x2, image_2x2)] (Some []).

Definition toy_resumed_late_state : @state toy_resumed_late :=
  toy_state toy_resumed_late 1 () 0 (lit 5e-7) None.

(** The state in which [fit] leaves [toy_val_state]. *)
Definition toy_val_final : @state toy_val :=
  match @fit toy_val toy_val_state with
  | Ok st => st
  | Raise _ => toy_val_state
  end.

(** [toy_val_state] with a best score of 0.5 on record, in the trainer and
    under [best.trh]. *)
Definition toy_val_scored_state : @state toy_val :=
  mkState (1 : @Params toy_val) false (0 : @Grads toy_val) (() : @OptimState toy_val)
    (lit 0.0001) None (lit 0.5)
    {[ @best_model_path toy_val :=
         mkCheckpoint (1 : @Params toy_val) (() : @OptimState toy_val, lit 0.0001)
           (lit 0.5) 0%nat ]} [].

(** The state in which [fit] leaves [toy_val_scored_state]. *)
Definition toy_val_scored_final : @state toy_val :=
  match @fit toy_val toy_val_scored_state with
  | Ok st => st
  | Raise _ => toy_val_scored_state
  end.
(** * Facts *)

(** ** Strided slices and [map4] *)

Lemma list_pair_ind {A} (P : list A → Prop) :
  P [] → (∀ x, P [x]) → (∀ x y l, P l → P (x :: y :: l)) → ∀ l, P l.
Proof.
  intros Hnil Hone Hstep.
  fix IH 1. intros [|x [|y l]]; [done|done|]. apply Hstep, IH.
Qed.

Lemma Even_length_inv {A} (x y : A) (l : list A) :
  Nat.Even (length (x :: y :: l)) → Nat.Even (length l).
Proof. simpl. intros [k Hk]. exists (k - 1)%nat. lia. Qed.

Lemma Even_length_one {A} (x : A) : ¬ Nat.Even (length [x]).
Proof. simpl. intros [k Hk]. lia. Qed.

Lemma interleave_stride {A} (l : list A) :
  Nat.Even (length l) → interleave (stride0 l) (stride1 l) = l.
Proof.
  induction l as [|x|x y l IH] using list_pair_ind; intros Hev.
  - done.
  - by apply Even_length_one in Hev.
  - simpl. f_equal. f_equal. apply IH. by eapply Even_length_inv.
Qed.

Lemma length_map4_indep {A B C D E E'} (f : A → B → C → D → E) (g : A → B → C → D → E')
    l1 l2 l3 l4 :
  length (map4 f l1 l2 l3 l4) = length (map4 g l1 l2 l3 l4).
Proof.
  revert l2 l3 l4. induction l1 as [|a l1 IH]; intros [|b l2] [|c l3] [|d l4]; simpl; auto.
Qed.

(** ** The Haar pair on a plane *)

Lemma mix_unmix (a b c d : Qc) :
  mix_pppp (mix_pppp a b c d) (mix_ppmm a b c d) (mix_pmpm a b c d) (mix_pmmp a b c d) = a
  ∧ mix_ppmm (mix_pppp a b c d) (mix_ppmm a b c d) (mix_pmpm a b c d) (mix_pmmp a b c d) = b
  ∧ mix_pmpm (mix_pppp a b c d) (mix_ppmm a b c d) (mix_pmpm a b c d) (mix_pmmp a b c d) = c
  ∧ mix_pmmp (mix_pppp a b c d) (mix_ppmm a b c d) (mix_pmpm a b c d) (mix_pmmp a b c d) = d.
Proof.
  unfold mix_pppp, mix_ppmm, mix_pmpm, mix_pmmp, haar_alpha.
  repeat split; field; done.
Qed.

(** Two rows of one even length are recovered from their four half rows. *)
Lemma rows_round_trip (r0 r1 : list Qc) :
  length r0 = length r1 → Nat.Even (length r0) →
  let band f := map4 f (stride0 r0) (stride1 r0) (stride0 r1) (stride1 r1) in
  let back f := map4 f (band mix_pppp) (band mix_ppmm) (band mix_pmpm) (band mix_pmmp) in
  interleave (back mix_pppp) (back mix_ppmm) = r0
  ∧ interleave (back mix_pmpm) (back mix_pmmp) = r1.
Proof.
  revert r1. induction r0 as [|a|a b r0 IH] using list_pair_ind; intros r1 Hlen Hev.
  - by destruct r1.
  - by apply Even_length_one in Hev.
  - destruct r1 as [|c [|d r1]]; [done|done|].
    destruct (IH r1) as [IH0 IH1];
      [simpl in Hlen; lia|exact (Even_length_inv a b r0 Hev)|].
    destruct (mix_unmix a b c d) as (Ha & Hb & Hc & Hd).
    cbn zeta in *. cbn [stride0 stride1 map4 interleave].
    rewrite Ha, Hb, Hc, Hd, IH0, IH1. done.
Qed.

Lemma haar_plane_round_trip (h w : nat) (p : plane) :
  plane_shape h w p → Nat.Even h → Nat.Even w →
  haar_unblock (haar_band mix_pppp p) (haar_band mix_ppmm p)
               (haar_band mix_pmpm p) (haar_band mix_pmmp p) = p.
Proof.
  intros [Hh Hrows] Hev Hw. subst h. clear -Hrows Hev Hw.
  induction p as [|r|r0 r1 p IH] using list_pair_ind.
  - done.
  - by apply Even_length_one in Hev.
  - rewrite !Forall_cons_iff in Hrows. destruct Hrows as (Hr0 & Hr1 & Hrows).
    specialize (IH Hrows (Even_length_inv _ _ _ Hev)).
    destruct (rows_round_trip r0 r1) as [E0 E1]; [congruence|by rewrite Hr0|].
    cbn zeta in E0, E1.
    unfold haar_unblock, haar_band, pointwise4, x00, x01, x10, x11 in *.
    cbn [stride0 stride1 fmap list_fmap map4 zip_with interleave].
    rewrite E0, E1. f_equal. f_equal. exact IH.
Qed.

Lemma row_lengths_band f g (s : sample) :
  row_lengths (haar_band f <$> s) = row_lengths (haar_band g <$> s).
Proof.
  unfold row_lengths. induction s as [|p s IH]; [done|].
  cbn [fmap list_fmap]. f_equal; [|exact IH].
  unfold haar_band, pointwise4.
  generalize (x00 p) (x01 p) (x10 p) (x11 p). clear.
  intros A. induction A as [|a A IH]; intros [|b B] [|c C] [|d D]; try done.
  cbn [map4 fmap list_fmap]. f_equal; [apply length_map4_indep|apply IH].
Qed.

(** ** The Haar pair on tensors *)

Lemma even_plane_shape h w (p : plane) :
  plane_shape h w p → Nat.Even h → Nat.Even w → even_plane p = true.
Proof.
  intros [Hh Hrows] Hev Hw. unfold even_plane. apply andb_true_intro; split.
  - rewrite Hh. by apply Nat.even_spec.
  - apply forallb_forall. intros r Hr. rewrite Forall_forall in Hrows.
    rewrite (Hrows r Hr). by apply Nat.even_spec.
Qed.

Lemma HaarForward_ok b c h w (x : tensor) :
  tensor_shape b c h w x → Nat.Even h → Nat.Even w →
  HaarForward x = Ok (haar_forward_sample <$> x).
Proof.
  intros [_ Hx] Hev Hw. unfold HaarForward.
  replace (forallb (forallb even_plane) x) with true; [done|].
  symmetry. apply forallb_forall. intros s Hs. apply forallb_forall. intros p Hp.
  rewrite Forall_forall in Hx.
  destruct (Hx s Hs) as [_ Hplanes]. rewrite Forall_forall in Hplanes.
  eapply even_plane_shape; eauto.
Qed.

Lemma drop_app_two {A} n (a b l : list A) :
  length a = n → length b = n → drop (n * 2) (a ++ b ++ l) = l.
Proof.
  intros Ha Hb. replace (n * 2)%nat with (n + n)%nat by lia.
  rewrite <- drop_drop, (drop_app_length' a) by done. by rewrite drop_app_length'.
Qed.

Lemma drop_app_three {A} n (a b c l : list A) :
  length a = n → length b = n → length c = n → drop (n * 3) (a ++ b ++ c ++ l) = l.
Proof.
  intros Ha Hb Hc. replace (n * 3)%nat with (n + n * 2)%nat by lia.
  rewrite <- drop_drop, (drop_app_length' a) by done. by apply drop_app_two.
Qed.

Lemma length_haar_forward_sample c h w (s : sample) :
  sample_shape c h w s → length (haar_forward_sample s) = (4 * c)%nat.
Proof.
  intros [Hc _]. unfold haar_forward_sample. rewrite !length_app, !length_fmap. lia.
Qed.

Lemma size1_HaarForward b c h w (x : tensor) :
  tensor_shape b c h w x → x ≠ [] → (size1 (haar_forward_sample <$> x) `div` 4)%nat = c.
Proof.
  intros [_ Hx] Hne. destruct x as [|s x]; [done|].
  apply Forall_cons_iff in Hx as [Hs _]. cbn [fmap list_fmap size1].
  rewrite (length_haar_forward_sample c h w) by done.
  rewrite Nat.mul_comm. by apply Nat.div_mul.
Qed.

(** On a well-shaped tensor of even height and width [DWTHaar.forward]
    returns the four sub-bands of every plane. *)
Lemma DWTHaar_forward_ok b c h w (x : tensor) :
  tensor_shape b c h w x → Nat.Even h → Nat.Even w →
  DWTHaar_forward x
  = Ok (band_tensor mix_pppp x, band_tensor mix_ppmm x,
        band_tensor mix_pmpm x, band_tensor mix_pmmp x).
Proof.
  intros Hx Hev Hw. unfold DWTHaar_forward.
  rewrite (HaarForward_ok b c h w) by done. cbn [mbind result_bind].
  destruct (decide (x = [])) as [->|Hne]; [done|].
  rewrite (size1_HaarForward b c h w) by done.
  destruct Hx as [_ Hx]. unfold slice1, slice1_from, band_tensor.
  rewrite <- !list_fmap_compose.
  f_equal; f_equal; [f_equal; [f_equal|]|];
    apply Forall_fmap_ext_1; (eapply Forall_impl; [|exact Hx]);
    intros s [Hc _]; unfold compose, haar_forward_sample.
  - rewrite Nat.sub_0_r, drop_0. by rewrite take_app_length' by by rewrite length_fmap.
  - rewrite drop_app_length' by by rewrite length_fmap.
    replace (c * 2 - c)%nat with c by lia.
    by rewrite take_app_length' by by rewrite length_fmap.
  - rewrite drop_app_two by by rewrite length_fmap.
    replace (c * 3 - c * 2)%nat with c by lia.
    by rewrite take_app_length' by by rewrite length_fmap.
  - by rewrite drop_app_three by by rewrite length_fmap.
Qed.

Lemma zip_with_fmap_same {A B C D} (f : B → C → D) (g : A → B) (k : A → C) (l : list A) :
  zip_with f (g <$> l) (k <$> l) = (λ a, f (g a) (k a)) <$> l.
Proof. induction l as [|a l IH]; [done|]. cbn. by rewrite IH. Qed.

Lemma torch_cat1_bands (x : tensor) :
  torch_cat1 [band_tensor mix_pppp x; band_tensor mix_ppmm x;
              band_tensor mix_pmpm x; band_tensor mix_pmmp x]
  = haar_forward_sample <$> x.
Proof. unfold torch_cat1, band_tensor. by rewrite !zip_with_fmap_same. Qed.

Lemma mapM_result_fmap {A B} (f : B → result A) (g : A → B) (l : list A) :
  Forall (λ a, f (g a) = Ok a) l → mapM_result f (g <$> l) = Ok l.
Proof.
  induction 1 as [|a l Ha _ IH]; [done|].
  cbn [fmap list_fmap mapM_result]. rewrite Ha. cbn. rewrite IH. done.
Qed.

Lemma map4_haar_unblock h w (s : sample) :
  Forall (plane_shape h w) s → Nat.Even h → Nat.Even w →
  map4 haar_unblock (haar_band mix_pppp <$> s) (haar_band mix_ppmm <$> s)
                    (haar_band mix_pmpm <$> s) (haar_band mix_pmmp <$> s) = s.
Proof.
  intros Hs Hev Hw. induction Hs as [|p s Hp _ IH]; [done|].
  cbn [fmap list_fmap map4]. rewrite (haar_plane_round_trip h w) by done.
  f_equal. exact IH.
Qed.

Lemma haar_inverse_forward_sample c h w (s : sample) :
  sample_shape c h w s → Nat.Even h → Nat.Even w →
  haar_inverse_sample c (haar_forward_sample s) = Ok s.
Proof.
  intros Hs Hev Hw. pose proof (length_haar_forward_sample c h w s Hs) as Hlen.
  destruct Hs as [Hc Hplanes]. unfold haar_inverse_sample.
  assert (E0 : take c (drop (c * 0) (haar_forward_sample s)) = haar_band mix_pppp <$> s).
  { rewrite Nat.mul_0_r, drop_0. unfold haar_forward_sample.
    by rewrite take_app_length' by by rewrite length_fmap. }
  assert (E1 : take c (drop (c * 1) (haar_forward_sample s)) = haar_band mix_ppmm <$> s).
  { rewrite Nat.mul_1_r. unfold haar_forward_sample.
    rewrite drop_app_length' by by rewrite length_fmap.
    by rewrite take_app_length' by by rewrite length_fmap. }
  assert (E2 : take c (drop (c * 2) (haar_forward_sample s)) = haar_band mix_pmpm <$> s).
  { unfold haar_forward_sample. rewrite drop_app_two by by rewrite length_fmap.
    by rewrite take_app_length' by by rewrite length_fmap. }
  assert (E3 : take c (drop (c * 3) (haar_forward_sample s)) = haar_band mix_pmmp <$> s).
  { unfold haar_forward_sample. rewrite drop_app_three by by rewrite length_fmap.
    apply take_ge. rewrite length_fmap. lia. }
  rewrite E0, E1, E2, E3. rewrite decide_True.
  - by rewrite (map4_haar_unblock h w).
  - split; [done|]. repeat split; apply row_lengths_band.
Qed.

Lemma IWTHaar_forward_bands b c h w (x : tensor) :
  tensor_shape b c h w x → Nat.Even h → Nat.Even w →
  IWTHaar_forward (band_tensor mix_pppp x) (band_tensor mix_ppmm x)
                  (band_tensor mix_pmpm x) (band_tensor mix_pmmp x) = Ok x.
Proof.
  intros Hx Hev Hw. unfold IWTHaar_forward, HaarInverse. rewrite torch_cat1_bands.
  destruct (decide (x = [])) as [->|Hne]; [done|].
  rewrite (size1_HaarForward b c h w) by done.
  apply mapM_result_fmap. destruct Hx as [_ Hx].
  eapply Forall_impl; [|exact Hx]. intros s Hs.
  by apply (haar_inverse_forward_sample c h w).
Qed.

Lemma max_abs_diff_same (x : tensor) : max_abs_diff x x = 0.
Proof.
  unfold max_abs_diff. induction (entries x) as [|a l IH]; [done|].
  cbn [zip_with foldr]. rewrite IH.
  replace (a - a) with 0 by ring. done.
Qed.

(** C6. For a tensor of even height and width, [IWTHaar] applied to the four
    sub-bands that [DWTHaar] returns gives the tensor back: in exact
    arithmetic the round trip is the identity, so the largest absolute
    difference, 0, is below the tolerance 1e-4. *)
Theorem haar_round_trip b c h w (x : tensor) :
  tensor_shape b c h w x → Nat.Even h → Nat.Even w →
  ∃ ll lh hl hh y,
    DWTHaar_forward x = Ok (ll, lh, hl, hh)
    ∧ IWTHaar_forward ll lh hl hh = Ok y
    ∧ y = x
    ∧ max_abs_diff y x < lit 1e-4.
Proof.
  intros Hx Hev Hw.
  exists (band_tensor mix_pppp x), (band_tensor mix_ppmm x),
         (band_tensor mix_pmpm x), (band_tensor mix_pmmp x), x.
  split; [by apply (DWTHaar_forward_ok b c h w)|].
  split; [by apply (IWTHaar_forward_bands b c h w)|].
  split; [done|]. by rewrite max_abs_diff_same.
Qed.

Lemma image_2x4_shape : tensor_shape 1 2 2 4 image_2x4.
Proof. repeat (split || constructor). Defined.

Lemma haar_round_trip_witness :
  tensor_shape 1 2 2 4 image_2x4 ∧ Nat.Even 2 ∧ Nat.Even 4
  ∧ ∃ ll lh hl hh y,
      DWTHaar_forward image_2x4 = Ok (ll, lh, hl, hh)
      ∧ IWTHaar_forward ll lh hl hh = Ok y
      ∧ y = image_2x4
      ∧ max_abs_diff y image_2x4 < lit 1e-4.
Proof.
  split; [exact image_2x4_shape|]. split; [by exists 1%nat|]. split; [by exists 2%nat|].
  apply (haar_round_trip 1 2 2 4 image_2x4);
    [exact image_2x4_shape|by exists 1%nat|by exists 2%nat].
Defined.

(** ** The pyramid loss *)

Lemma wavelets_loss_loop_accumulate pyr gt acc scale factor ls :
  level_losses pyr gt = Ok ls →
  wavelets_loss_loop pyr gt acc scale factor = Ok (accumulate factor scale acc ls).
Proof.
  revert gt acc scale ls. induction pyr as [|lvl pyr IH]; intros gt acc scale ls Hls.
  - simpl in Hls. by injection Hls as <-.
  - cbn [level_losses wavelets_loss_loop] in *.
    destruct (DWTHaar_forward gt) as [[[[gt_ll gt_lh] gt_hl] gt_hh]|e]; [|done].
    cbn [mbind result_bind] in *.
    destruct (level_losses pyr gt_ll) as [ls'|e] eqn:Hrest; [|done].
    cbn [mbind result_bind] in Hls. injection Hls as <-.
    cbn [accumulate]. by apply IH.
Qed.

Lemma accumulate_factor_one (acc : Qc) (ls : list Qc) :
  accumulate 1 1 (Some acc) ls = Some (acc + sum_list ls).
Proof.
  revert acc. induction ls as [|l ls IH]; intros acc; cbn [accumulate sum_list foldr].
  - f_equal. ring.
  - replace (1 * 1) with 1 by ring. cbn [_add_loss]. rewrite IH. f_equal.
    unfold sum_list. ring.
Qed.

Lemma sum_list_imap_scale (c : Qc) (g h : nat → Qc → Qc) (l : list Qc) :
  (∀ i x, g i x = c * h i x) → sum_list (imap g l) = c * sum_list (imap h l).
Proof.
  revert g h. induction l as [|x l IH]; intros g h Hgh; cbn [imap sum_list foldr].
  - ring.
  - fold (sum_list (imap (g ∘ S) l)). fold (sum_list (imap (h ∘ S) l)).
    rewrite (IH (g ∘ S) (h ∘ S)) by (intros i y; apply Hgh). rewrite Hgh. ring.
Qed.

Lemma weighted_sum_cons (f l : Qc) (ls : list Qc) :
  weighted_sum f (l :: ls) = l + f * weighted_sum f ls.
Proof.
  unfold weighted_sum. cbn [imap sum_list foldr].
  fold (sum_list (imap ((λ i x, x * f ^ i) ∘ S) ls)).
  rewrite (sum_list_imap_scale f _ (λ i x, x * f ^ i)).
  - cbn [Qcpower]. ring.
  - intros i x. unfold compose. cbn [Qcpower]. ring.
Qed.

(** Built level by level from the scale [s], the sum is [s] times the
    weighted sum. *)
Lemma weighted_from_spec (f s : Qc) (ls : list Qc) :
  weighted_from f s ls = s * weighted_sum f ls.
Proof.
  revert s. induction ls as [|l ls IH]; intros s; cbn [weighted_from].
  - unfold weighted_sum, sum_list. cbn. ring.
  - rewrite IH, weighted_sum_cons. ring.
Qed.

Lemma weighted_sum_factor_one (ls : list Qc) : weighted_sum 1 ls = sum_list ls.
Proof.
  induction ls as [|l ls IH]; [done|]. rewrite weighted_sum_cons, IH.
  unfold sum_list. cbn [foldr]. ring.
Qed.

(** With the default [factor = 1.0], the only one the train step uses, the
    loop returns the plain sum of the per-level losses, which is their
    weighted sum. *)
Lemma compute_wavelets_loss_factor_one pyr gt ls :
  pyr ≠ [] → level_losses pyr gt = Ok ls →
  _compute_wavelets_loss pyr gt 1 = Ok (Some (weighted_sum 1 ls)).
Proof.
  intros Hne Hls. unfold _compute_wavelets_loss.
  rewrite (wavelets_loss_loop_accumulate _ _ _ _ _ ls Hls).
  destruct ls as [|l ls].
  { destruct pyr as [|lvl pyr]; [done|]. cbn [level_losses] in Hls.
    destruct (DWTHaar_forward gt) as [[[[? ?] ?] ?]|e]; [|done].
    cbn [mbind result_bind] in Hls. by destruct (level_losses pyr _). }
  cbn [accumulate _add_loss]. replace (1 * 1) with 1 by ring.
  replace (l * 1) with l by ring. rewrite accumulate_factor_one, !weighted_sum_factor_one.
  done.
Qed.

(** Three levels, any factor: what the loop returns, next to the weighted
    sum. The two differ as soon as [factor] is not 1. *)
Lemma accumulate_three_levels (f l0 l1 l2 : Qc) :
  accumulate f 1 None [l0; l1; l2] = Some (((l0 + l1) * f + l2) * (f * f))
  ∧ weighted_sum f [l0; l1; l2] = l0 + l1 * f + l2 * (f * f).
Proof.
  split.
  - cbn [accumulate _add_loss]. apply (f_equal Some). ring.
  - rewrite !weighted_sum_cons. unfold weighted_sum, sum_list. cbn. ring.
Qed.

(** The sibling loop of [_compute_adversarial_loss] does add
    [level loss * scale]: when it returns, it returns a weighted sum of one
    loss per level. *)
Lemma adversarial_loss_loop_weighted fs pyr gt acc scale factor :
  length fs = length pyr →
  (∃ e, adversarial_loss_loop fs pyr gt acc scale factor = Raise e)
  ∨ ∃ ls, length ls = length pyr
          ∧ adversarial_loss_loop fs pyr gt acc scale factor
            = Ok (acc + scale * weighted_sum factor ls).
Proof.
  intros Hlen.
  enough ((∃ e, adversarial_loss_loop fs pyr gt acc scale factor = Raise e)
          ∨ ∃ ls, length ls = length pyr
                  ∧ adversarial_loss_loop fs pyr gt acc scale factor
                    = Ok (acc + weighted_from factor scale ls)) as [?|(ls & ? & Heq)].
  { by left. }
  { right. exists ls. by rewrite Heq, weighted_from_spec. }
  revert fs gt acc scale Hlen. induction pyr as [|lvl pyr IH]; intros fs gt acc scale Hlen.
  - right. exists []. split; [done|]. cbn [adversarial_loss_loop weighted_from].
    apply (f_equal Ok). ring.
  - destruct fs as [|f fs]; [done|]. cbn [adversarial_loss_loop].
    destruct (DWTHaar_forward gt) as [[[[gt_ll gt_lh] gt_hl] gt_hh]|e]; [|left; by eexists].
    cbn [mbind result_bind].
    destruct (IH fs gt_ll
                (acc + f (slice1_from 3 lvl) (torch_cat1 [gt_lh; gt_hl; gt_hh]) * scale)
                (scale * factor)) as [[e He]|(ls & Hls & Heq)]; [by injection Hlen|..].
    + left. by exists e.
    + right. exists (f (slice1_from 3 lvl) (torch_cat1 [gt_lh; gt_hl; gt_hh]) :: ls).
      split; [simpl; lia|]. rewrite Heq. apply (f_equal Ok). cbn [weighted_from]. ring.
Qed.

Lemma level_losses_unit : level_losses pyramid_unit_losses gt_zero8 = Ok [1; 1; 1].
Proof. apply (bool_decide_unpack _). vm_compute. reflexivity. Qed.

(** C1. With [factor = 0.5] and the per-level losses [1, 1, 1] the weighted
    sum of the levels, each times [factor ^ i], is 1.75; the loop of
    [_compute_wavelets_loss] multiplies the whole running loss by the scale
    at every level and returns 0.5. *)
Theorem wavelets_loss_half_factor_three_levels :
  level_losses pyramid_unit_losses gt_zero8 = Ok [1; 1; 1]
  ∧ weighted_sum (lit 0.5) [1; 1; 1] = lit 1.75
  ∧ _compute_wavelets_loss pyramid_unit_losses gt_zero8 (lit 0.5) = Ok (Some (lit 0.5)).
Proof. repeat split; apply (bool_decide_unpack _); vm_compute; reflexivity. Qed.

Lemma wavelets_loss_loop_some pyr gt (acc scale factor : Qc) :
  wavelets_loss_loop pyr gt (Some acc) scale factor ≠ Ok None.
Proof.
  revert gt acc scale. induction pyr as [|lvl pyr IH]; intros gt acc scale; [done|].
  cbn [wavelets_loss_loop].
  destruct (DWTHaar_forward gt) as [[[[gt_ll gt_lh] gt_hl] gt_hh]|e]; [|done].
  cbn [mbind result_bind]. apply IH.
Qed.

(** C8 (as the code has it). On an empty pyramid [_compute_wavelets_loss]
    raises nothing: the loop body never runs and the initial [None] is
    returned. It is the only pyramid for which [None] is returned. *)
Theorem compute_wavelets_loss_empty (pyr : list tensor) (gt_image : tensor) (factor : Qc) :
  _compute_wavelets_loss pyr gt_image factor = Ok None ↔ pyr = [].
Proof.
  split; [|by intros ->].
  destruct pyr as [|lvl pyr]; [done|]. unfold _compute_wavelets_loss.
  cbn [wavelets_loss_loop].
  destruct (DWTHaar_forward gt_image) as [[[[gt_ll gt_lh] gt_hl] gt_hh]|e]; [|done].
  cbn [mbind result_bind]. intros Hnone. by apply wavelets_loss_loop_some in Hnone.
Qed.

(** C8 (counterexample). The empty pyramid against the zero image: a value,
    [None], is returned and no exception is raised. *)
Lemma compute_wavelets_loss_empty_no_error :
  _compute_wavelets_loss [] gt_zero8 1 = Ok None
  ∧ ∀ e, _compute_wavelets_loss [] gt_zero8 1 ≠ Raise e.
Proof. split; [reflexivity|]. intros e. discriminate. Qed.

(** ** The deep inverse reconstruction *)

Lemma map4_replicate {A B C D E} (f : A → B → C → D → E) n a b c d :
  map4 f (replicate n a) (replicate n b) (replicate n c) (replicate n d)
  = replicate n (f a b c d).
Proof. induction n as [|n IH]; [done|]. cbn [replicate map4]. by rewrite IH. Qed.

Lemma interleave_replicate {A} n (a : A) :
  interleave (replicate n a) (replicate n a) = replicate (2 * n) a.
Proof.
  induction n as [|n IH]; [done|].
  replace (2 * S n)%nat with (S (S (2 * n))) by lia.
  cbn [replicate interleave]. by rewrite IH.
Qed.

Lemma zip_with_interleave_replicate {A} n (r : list A) :
  zip_with interleave (replicate n r) (replicate n r) = replicate n (interleave r r).
Proof. induction n as [|n IH]; [done|]. cbn [replicate zip_with]. by rewrite IH. Qed.

Lemma mix_const (v : Qc) :
  mix_pppp v 0 0 0 = haar_alpha * v ∧ mix_ppmm v 0 0 0 = haar_alpha * v
  ∧ mix_pmpm v 0 0 0 = haar_alpha * v ∧ mix_pmmp v 0 0 0 = haar_alpha * v.
Proof. unfold mix_pppp, mix_ppmm, mix_pmpm, mix_pmmp. repeat split; ring. Qed.

(** The inverse transform of a constant approximation band with zero detail
    bands is constant, at half the value. *)
Lemma haar_unblock_const h w (v : Qc) :
  haar_unblock (const_plane h w v) (const_plane h w 0) (const_plane h w 0) (const_plane h w 0)
  = const_plane (2 * h) (2 * w) (haar_alpha * v).
Proof.
  destruct (mix_const v) as (E1 & E2 & E3 & E4).
  unfold haar_unblock, pointwise4, const_plane.
  rewrite !map4_replicate, E1, E2, E3, E4.
  by rewrite zip_with_interleave_replicate, !interleave_replicate.
Qed.

Lemma row_lengths_const n h w (v v' : Qc) :
  row_lengths (replicate n (const_plane h w v)) = row_lengths (replicate n (const_plane h w v')).
Proof.
  unfold row_lengths, const_plane. rewrite !fmap_replicate. f_equal. by rewrite !length_replicate.
Qed.

Lemma mapM_result_replicate {A B} (f : A → result B) n a c :
  f a = Ok c → mapM_result f (replicate n a) = Ok (replicate n c).
Proof.
  intros Hf. induction n as [|n IH]; [done|].
  cbn [replicate mapM_result]. rewrite Hf. cbn. by rewrite IH.
Qed.

Lemma IWTHaar_forward_const b h w (v : Qc) :
  (0 < b)%nat →
  IWTHaar_forward (const_tensor b 3 h w v) (const_tensor b 3 h w 0)
                  (const_tensor b 3 h w 0) (const_tensor b 3 h w 0)
  = Ok (const_tensor b 3 (2 * h) (2 * w) (haar_alpha * v)).
Proof.
  intros Hb. unfold IWTHaar_forward, HaarInverse, const_tensor, torch_cat1.
  rewrite !zip_with_replicate.
  replace (size1 _ `div` 4)%nat with 3%nat by (destruct b; [lia|done]).
  apply mapM_result_replicate. unfold haar_inverse_sample.
  cbn [replicate app Nat.mul drop take].
  rewrite decide_True.
  - cbn [Nat.add drop take map4]. by rewrite haar_unblock_const.
  - split; [done|].
    repeat split; apply (row_lengths_const 3).
Qed.

Lemma tensor_scale_const b c h w (v k : Qc) :
  tensor_scale (const_tensor b c h w v) k = const_tensor b c h w (v * k).
Proof. unfold tensor_scale, const_tensor, const_plane. by rewrite !fmap_replicate. Qed.

Lemma tensor_shape_const b c h w (v : Qc) : tensor_shape b c h w (const_tensor b c h w v).
Proof.
  unfold tensor_shape, sample_shape, plane_shape, const_tensor, const_plane.
  split; [by rewrite length_replicate|]. apply Forall_replicate.
  split; [by rewrite length_replicate|]. apply Forall_replicate.
  split; [by rewrite length_replicate|]. apply Forall_replicate.
  by rewrite length_replicate.
Qed.

Lemma level_zero_details_fmap b h w (approx : tensor) :
  length approx = b →
  level_zero_details b h w approx
  = (λ s, s ++ replicate 9 (const_plane h w 0)) <$> approx.
Proof.
  intros <-. unfold level_zero_details, torch_cat1, const_tensor.
  induction approx as [|s approx IH]; [done|].
  cbn [length replicate zip_with fmap list_fmap]. f_equal. exact IH.
Qed.

Lemma torch_split3_level b h w h' w' (approx : tensor) :
  (0 < b)%nat → tensor_shape b 3 h' w' approx →
  torch_split3_unpack4 (level_zero_details b h w approx)
  = Ok (approx, const_tensor b 3 h w 0, const_tensor b 3 h w 0, const_tensor b 3 h w 0).
Proof.
  intros Hb [Hlen Hx]. rewrite level_zero_details_fmap by done.
  unfold torch_split3_unpack4. rewrite decide_True; cycle 1.
  { destruct approx as [|s approx]; [simpl in Hlen; lia|].
    apply Forall_cons_iff in Hx as [[Hs _] _].
    cbn [fmap list_fmap size1]. rewrite length_app, Hs, length_replicate. lia. }
  assert (Hch : Forall (λ s : sample, length s = 3%nat) approx).
  { eapply Forall_impl; [|exact Hx]. by intros s [Hs _]. }
  unfold slice1, slice1_from, const_tensor. rewrite <- !list_fmap_compose, <- Hlen.
  f_equal; f_equal; [f_equal; [f_equal|]|].
  - rewrite <- (list_fmap_id approx) at 2. apply Forall_fmap_ext_1.
    eapply Forall_impl; [|exact Hch]. intros s Hs. unfold compose.
    by rewrite drop_0, take_app_length' by done.
  - apply const_fmap. intros i s Hs%(proj1 (Forall_lookup _ _) Hch). unfold compose.
    by rewrite drop_app_length' by done.
  - apply const_fmap. intros i s Hs%(proj1 (Forall_lookup _ _) Hch). unfold compose.
    by rewrite (drop_app_add' s _ 3 3) by done.
  - apply const_fmap. intros i s Hs%(proj1 (Forall_lookup _ _) Hch). unfold compose.
    by rewrite (drop_app_add' s _ 3 6) by done.
Qed.

(** One level up: the constant stays, the height and width double. *)
Lemma deep_iwt_loop_flat b h w (v : Qc) (levels : list tensor) :
  (0 < b)%nat → zero_details b h w levels →
  deep_iwt_loop levels (const_tensor b 3 h w v)
  = Ok (const_tensor b 3 (h * 2 ^ length levels) (w * 2 ^ length levels) v).
Proof.
  intros Hb Hz. induction Hz as [h w|h w approx finer Happrox _ IH].
  - cbn [deep_iwt_loop length Nat.pow]. by rewrite !Nat.mul_1_r.
  - cbn [deep_iwt_loop]. rewrite (torch_split3_level b h w h w) by done.
    cbn [mbind result_bind]. rewrite IWTHaar_forward_const by done.
    cbn [mbind result_bind]. rewrite tensor_scale_const.
    replace (haar_alpha * v * 2) with v by (unfold haar_alpha; field; done).
    rewrite IH. cbn [length]. rewrite Nat.pow_succ_r'. f_equal. f_equal; lia.
Qed.

(** C7 (as the code has it). For a pyramid of depth at least one with zero
    detail bands whose deepest approximation band is the constant [v], the
    image that [_compute_deep_iwt_loss] scores is the constant [v] at
    [2 ^ L] times the height and width: each rescale by 2 undoes the halving
    of the inverse transform, so the value does not grow with the depth. *)
Theorem deep_iwt_flat_pyramid b h w (v : Qc) (pyr : list tensor) :
  (0 < b)%nat → flat_pyramid b h w v pyr →
  deep_iwt_composed_image pyr
  = Ok (const_tensor b 3 (h * 2 ^ length pyr) (w * 2 ^ length pyr) v).
Proof.
  intros Hb (finer & Hrev & Hz). unfold deep_iwt_composed_image. rewrite Hrev.
  pose proof (torch_split3_level b h w h w (const_tensor b 3 h w v) Hb
                (tensor_shape_const b 3 h w v)) as Hsplit.
  unfold torch_split3_unpack4 in Hsplit. case_decide; [|done].
  injection Hsplit as -> _ _ _.
  rewrite <- (length_reverse pyr), Hrev.
  apply deep_iwt_loop_flat; [done|].
  constructor; [apply tensor_shape_const|done].
Qed.

Lemma flat_pyramid2_flat (v : Qc) : flat_pyramid 1 1 1 v (flat_pyramid2 v).
Proof.
  exists [level_zero_details 1 2 2 (const_tensor 1 3 2 2 (lit 7))]. split; [done|].
  apply (zero_details_cons 1 2 2); [apply tensor_shape_const|constructor].
Defined.

Lemma deep_iwt_flat_pyramid_witness :
  (0 < 1)%nat ∧ flat_pyramid 1 1 1 (lit 5) (flat_pyramid2 (lit 5))
  ∧ deep_iwt_composed_image (flat_pyramid2 (lit 5)) = Ok (const_tensor 1 3 4 4 (lit 5)).
Proof.
  split; [lia|]. split; [apply flat_pyramid2_flat|].
  apply (deep_iwt_flat_pyramid 1 1 1 (lit 5) (flat_pyramid2 (lit 5)));
    [lia|apply flat_pyramid2_flat].
Defined.

(** C7 (counterexample). Depth 2, [v = 1]: the reconstructed image is the
    constant 1, not the constant [1 * 2 ^ 2]. *)
Lemma deep_iwt_depth_two_not_scaled :
  flat_pyramid 1 1 1 1 (flat_pyramid2 1)
  ∧ deep_iwt_composed_image (flat_pyramid2 1) = Ok (const_tensor 1 3 4 4 1)
  ∧ deep_iwt_composed_image (flat_pyramid2 1) ≠ Ok (const_tensor 1 3 4 4 (1 * 2 ^ 2)).
Proof.
  split; [apply flat_pyramid2_flat|].
  split; [apply (bool_decide_unpack _); vm_compute; reflexivity|].
  apply (bool_decide_unpack _). vm_compute. reflexivity.
Qed.

(** ** Checkpoint selection *)

Lemma append_inj_r (s a b : string) : s +:+ a = s +:+ b → a = b.
Proof. induction s as [|c s IH]; [done|]. cbn. intros [= Heq]. by apply IH. Qed.

Section CheckpointFacts.
Context `{Pipeline}.

Lemma best_latest_differ : best_model_path ≠ latest_model_path.
Proof. unfold best_model_path, latest_model_path. by intros ?%append_inj_r. Qed.

Lemma save_best_improved epoch acc (st : state) :
  best_test_score st - acc < - lit 1e-5 →
  _save_best_checkpoint epoch acc st
  = let ck := mkCheckpoint (params st) (optim_state st, lr st) acc epoch in
    torch_save ck best_model_path
      (set_best_test_score acc (torch_save ck latest_model_path (model_eval st))).
Proof. intros Hlt. unfold _save_best_checkpoint. cbn -[Qclt]. by rewrite decide_True. Qed.

Lemma save_best_not_improved epoch acc (st : state) :
  ¬ best_test_score st - acc < - lit 1e-5 →
  _save_best_checkpoint epoch acc st
  = torch_save (mkCheckpoint (params st) (optim_state st, lr st) acc epoch)
      latest_model_path (model_eval st).
Proof. intros Hlt. unfold _save_best_checkpoint. cbn -[Qclt]. by rewrite decide_False. Qed.

Lemma save_best_log epoch acc (st : state) :
  log (_save_best_checkpoint epoch acc st)
  = log st ++ [ModelEval; TorchSave latest_model_path epoch acc]
      ++ (if decide (best_test_score st - acc < - lit 1e-5)
          then [TorchSave best_model_path epoch acc] else []).
Proof.
  case_decide as Hlt.
  - rewrite save_best_improved by done. cbn. by rewrite <- !(assoc_L (++)).
  - rewrite save_best_not_improved by done. cbn. by rewrite <- !(assoc_L (++)).
Qed.

Lemma save_best_score epoch acc (st : state) :
  best_test_score (_save_best_checkpoint epoch acc st)
  = if decide (best_test_score st - acc < - lit 1e-5) then acc else best_test_score st.
Proof.
  case_decide as Hlt.
  - by rewrite save_best_improved by done.
  - by rewrite save_best_not_improved by done.
Qed.

(** C3. [_save_best_checkpoint] always writes the record of the epoch to
    the latest file; it writes it to the best file, and takes the accuracy
    as the best score, exactly when [best - accuracy < -1e-5], and leaves
    both as they were otherwise. From the best score 0, the accuracies
    10.0, 9.9, 10.2, 10.2000001 write the best file at the epochs 1 and 3
    only, and the latest file at every epoch. *)
Theorem checkpoint_selection :
  (∀ (st : state) epoch acc,
     let st' := _save_best_checkpoint epoch acc st in
     let ck := mkCheckpoint (params st) (optim_state st, lr st) acc epoch in
     files st' !! latest_model_path = Some ck
     ∧ (best_test_score st - acc < - lit 1e-5 →
        files st' !! best_model_path = Some ck ∧ best_test_score st' = acc)
     ∧ (¬ best_test_score st - acc < - lit 1e-5 →
        files st' !! best_model_path = files st !! best_model_path
        ∧ best_test_score st' = best_test_score st))
  ∧ (∀ st : state,
       let final := save_all accuracy_run (set_best_test_score 0 st) in
       saved_epochs best_model_path (new_events st final) = [1; 3]%nat
       ∧ saved_epochs latest_model_path (new_events st final) = [1; 2; 3; 4]%nat
       ∧ best_test_score final = lit 10.2).
Proof.
  pose proof best_latest_differ as Hne. split.
  - intros st epoch acc st' ck. subst st'. repeat split.
    + destruct (decide (best_test_score st - acc < - lit 1e-5)) as [Hlt|Hlt].
      * rewrite save_best_improved by done. cbn.
        rewrite lookup_insert_ne by done. apply lookup_insert_eq.
      * rewrite save_best_not_improved by done. cbn. apply lookup_insert_eq.
    + rewrite save_best_improved by done. cbn. apply lookup_insert_eq.
    + by rewrite save_best_improved by done.
    + rewrite save_best_not_improved by done. cbn. by rewrite lookup_insert_ne.
    + by rewrite save_best_not_improved by done.
  - intros st final.
    assert (H1 : (0 : Qc) - lit 10 < - lit 1e-5) by reflexivity.
    assert (H2 : ¬ lit 10 - lit 9.9 < - lit 1e-5) by (intros Hc; vm_compute in Hc; done).
    assert (H3 : lit 10 - lit 10.2 < - lit 1e-5) by reflexivity.
    assert (H4 : ¬ lit 10.2 - lit 10.2000001 < - lit 1e-5)
      by (intros Hc; vm_compute in Hc; done).
    subst final. unfold new_events, save_all, accuracy_run. cbn [foldl fst snd].
    set (s0 := set_best_test_score 0 st).
    set (s1 := _save_best_checkpoint 1 (lit 10) s0).
    set (s2 := _save_best_checkpoint 2 (lit 9.9) s1).
    set (s3 := _save_best_checkpoint 3 (lit 10.2) s2).
    set (s4 := _save_best_checkpoint 4 (lit 10.2000001) s3).
    assert (B1 : best_test_score s1 = lit 10).
    { unfold s1. rewrite save_best_score. by rewrite decide_True. }
    assert (B2 : best_test_score s2 = lit 10).
    { unfold s2. rewrite save_best_score, B1. by rewrite decide_False. }
    assert (B3 : best_test_score s3 = lit 10.2).
    { unfold s3. rewrite save_best_score, B2. by rewrite decide_True. }
    assert (B4 : best_test_score s4 = lit 10.2).
    { unfold s4. rewrite save_best_score, B3. by rewrite decide_False. }
    assert (L : log s4 = log st
              ++ [ModelEval; TorchSave latest_model_path 1 (lit 10);
                  TorchSave best_model_path 1 (lit 10);
                  ModelEval; TorchSave latest_model_path 2 (lit 9.9);
                  ModelEval; TorchSave latest_model_path 3 (lit 10.2);
                  TorchSave best_model_path 3 (lit 10.2);
                  ModelEval; TorchSave latest_model_path 4 (lit 10.2000001)]).
    { unfold s4. rewrite save_best_log, B3, (decide_False _ _ H4).
      unfold s3. rewrite save_best_log, B2, (decide_True _ _ H3).
      unfold s2. rewrite save_best_log, B1, (decide_False _ _ H2).
      unfold s1. rewrite save_best_log. change (best_test_score s0) with (0 : Qc).
      rewrite (decide_True _ _ H1). change (log s0) with (log st).
      by rewrite <- !(assoc_L (++)). }
    rewrite L, drop_app_length. unfold saved_epochs. cbn [omap list_omap].
    rewrite !(decide_True (P := best_model_path = best_model_path)) by done.
    rewrite !(decide_True (P := latest_model_path = latest_model_path)) by done.
    rewrite !(decide_False (P := best_model_path = latest_model_path)) by done.
    rewrite !(decide_False (P := latest_model_path = best_model_path)) by done.
    split; [reflexivity|]. split; [reflexivity|exact B4].
Qed.
End CheckpointFacts.

(** ** The validation step *)

Lemma of_nat_nonzero (n : nat) : (0 < n)%nat → of_nat n ≠ 0.
Proof.
  intros Hn Heq. apply (f_equal this) in Heq. unfold of_nat in Heq. cbn in Heq.
  injection Heq as Heq. lia.
Qed.

Lemma truediv_ok (a b : Qc) : b ≠ 0 → truediv a b = Ok (a / b).
Proof. intros Hb. unfold truediv. by rewrite decide_False. Qed.

Section ValidationFacts.
Context `{Pipeline}.

(** The averaging is guarded: whatever the samples, the step raises no
    [ZeroDivisionError], nor anything else. *)
Lemma validation_step_total (st : state) : ∃ r, _validation_step st = Ok r.
Proof.
  unfold _validation_step.
  destruct (match val_dataset with
            | Some items => foldl validation_sample (model_eval st, (0, 0, 0%nat)) items
            | None => (model_eval st, (0, 0, 0%nat))
            end) as [st1 [[a l] n]].
  case_decide as Hn.
  - rewrite !truediv_ok by by apply of_nat_nonzero. cbn. by eexists.
  - cbn. by eexists.
Qed.

(** C9. With no validation samples the step returns the average loss 0 and
    the average accuracy 0 without dividing, the sample count 0 failing
    the guard, and the scheduler, when there is one, is stepped all the
    same. *)
Theorem validation_step_no_samples (st : state) :
  val_dataset = Some [] →
  ∃ st', _validation_step st = Ok (0, 0, st')
    ∧ match scheduler st with
      | Some s =>
          scheduler st' = Some (MultiStepLR_step s (lr st)).1
          ∧ lr st' = (MultiStepLR_step s (lr st)).2
          ∧ new_events st st' = [ModelEval; SchedulerStep]
      | None =>
          scheduler st' = None ∧ lr st' = lr st ∧ new_events st st' = [ModelEval]
      end.
Proof.
  intros Hval. unfold _validation_step, new_events. rewrite Hval.
  cbn [foldl]. rewrite decide_False by lia. cbn [mbind result_bind].
  eexists. split; [reflexivity|].
  destruct (scheduler st) as [s|] eqn:Hs; cbn [scheduler model_eval]; rewrite Hs.
  - unfold scheduler_do_step.
    destruct (MultiStepLR_step s (lr (model_eval st))) as [s' lr'] eqn:Hstep.
    cbn in Hstep. rewrite Hstep. cbn.
    by rewrite <- (assoc_L (++)), drop_app_length.
  - cbn. by rewrite drop_app_length.
Qed.
End ValidationFacts.

Lemma validation_step_no_samples_witness :
  @val_dataset toy_decay = Some []
  ∧ ∃ st', @_validation_step toy_decay toy_decay_state = Ok (0, 0, st')
      ∧ match scheduler toy_decay_state with
        | Some s =>
            scheduler st' = Some (MultiStepLR_step s (lr toy_decay_state)).1
            ∧ lr st' = (MultiStepLR_step s (lr toy_decay_state)).2
            ∧ new_events toy_decay_state st' = [ModelEval; SchedulerStep]
        | None =>
            scheduler st' = None ∧ lr st' = lr toy_decay_state
            ∧ new_events toy_decay_state st' = [ModelEval]
        end.
Proof.
  split; [reflexivity|].
  apply (@validation_step_no_samples toy_decay toy_decay_state). reflexivity.
Defined.

(** ** The epoch loop *)

Section FitFacts.
Context `{Pipeline}.

Lemma stop_now_spec (st : state) : stop_now st = true ↔ stop_condition st.
Proof.
  unfold stop_now, stop_condition, _check_stop_criteria, get_lr.
  rewrite andb_true_iff, !bool_decide_eq_true. done.
Qed.

Lemma stop_now_false (st : state) : stop_now st = false ↔ ¬ stop_condition st.
Proof. rewrite <- stop_now_spec. by destruct (stop_now st). Qed.

(** The loop runs a prefix of its epochs; it leaves epochs out only when
    the stop test held after the last epoch it ran, and the test failed
    after every epoch that was followed by another. *)
Lemma fit_loop_prefix epoch_nums (st st' : state) :
  fit_loop epoch_nums st = Ok st' →
  ∃ ran rest,
    epoch_nums = ran ++ rest
    ∧ run_epochs ran st = Ok st'
    ∧ (rest ≠ [] → ran ≠ [] ∧ stop_now st' = true)
    ∧ (∀ ran1 ran2 s, ran = ran1 ++ ran2 → ran1 ≠ [] → ran2 ≠ [] →
         run_epochs ran1 st = Ok s → stop_now s = false).
Proof.
  revert st. induction epoch_nums as [|e es IH]; intros st Hfit.
  - injection Hfit as <-. exists [], []. repeat split; try done.
    intros ran1 ran2 s Heq Hne. by destruct ran1.
  - cbn [fit_loop] in Hfit.
    destruct (run_epoch e st) as [s1|err] eqn:Hrun; [|done].
    cbn [mbind result_bind] in Hfit.
    destruct (stop_now s1) eqn:Hstop.
    + injection Hfit as <-. exists [e], es. repeat split; try done.
      * cbn [run_epochs]. by rewrite Hrun.
      * intros ran1 ran2 s Heq Hne1 Hne2.
        destruct ran1 as [|? [|? ?]]; destruct ran2; try done.
    + destruct (IH s1 Hfit) as (ran & rest & -> & Hran & Hrest & Hmid).
      exists (e :: ran), rest. repeat split; try done.
      * cbn [run_epochs]. by rewrite Hrun.
      * by apply Hrest.
      * intros ran1 ran2 s Heq Hne1 Hne2 Hs.
        destruct ran1 as [|e1 ran1]; [done|]. injection Heq as -> ->.
        cbn [run_epochs] in Hs. rewrite Hrun in Hs. cbn [mbind result_bind] in Hs.
        destruct ran1 as [|e2 ran1].
        { injection Hs as <-. done. }
        by apply (Hmid (e2 :: ran1) ran2).
Qed.

(** C4. When [fit] returns, it has run the epochs of a prefix [ran] of
    [range(resume_epoch, epochs + 1)], the numbers from [resume_epoch] up to
    and including [epochs], one after the other. It stopped
    before the last epoch of the range only if, at the end of the last
    epoch it ran, after validation and checkpointing, a scheduler was
    there and [lr - stop_criteria < -1e-9]; and at the end of no earlier
    epoch did that hold. So it stops early exactly at the first epoch
    whose end meets the condition, and runs the whole range when there is
    none. *)
Theorem fit_stops_exactly_when (st st' : state) :
  fit st = Ok st' →
  ∃ ran rest,
    seq resume_epoch (epochs + 1 - resume_epoch) = ran ++ rest
    ∧ run_epochs ran st = Ok st'
    ∧ (rest ≠ [] → ran ≠ [] ∧ stop_condition st')
    ∧ (∀ ran1 ran2 s, ran = ran1 ++ ran2 → ran1 ≠ [] → ran2 ≠ [] →
         run_epochs ran1 st = Ok s → ¬ stop_condition s).
Proof.
  intros Hfit. destruct (fit_loop_prefix _ _ _ Hfit) as (ran & rest & Hr & Hran & Hrest & Hmid).
  exists ran, rest. split; [exact Hr|]. split; [done|]. split.
  - intros Hne. destruct (Hrest Hne) as [Hran' Hstop%stop_now_spec]. done.
  - intros ran1 ran2 s Heq Hne1 Hne2 Hs. apply stop_now_false. by eapply Hmid.
Qed.
End FitFacts.

Lemma toy_decay_fit_ok : is_ok (@fit toy_decay toy_decay_state) = true.
Proof. vm_compute. reflexivity. Qed.

Lemma toy_decay_fit : @fit toy_decay toy_decay_state = Ok toy_decay_final.
Proof.
  pose proof toy_decay_fit_ok as Hok. unfold toy_decay_final.
  by destruct (@fit toy_decay toy_decay_state).
Qed.

Lemma fit_stops_exactly_when_witness :
  @fit toy_decay toy_decay_state = Ok toy_decay_final
  ∧ ∃ ran rest,
      seq (@resume_epoch toy_decay) (@epochs toy_decay + 1 - @resume_epoch toy_decay)
      = ran ++ rest
      ∧ run_epochs ran toy_decay_state = Ok toy_decay_final
      ∧ (rest ≠ [] → ran ≠ [] ∧ stop_condition toy_decay_final)
      ∧ (∀ ran1 ran2 s, ran = ran1 ++ ran2 → ran1 ≠ [] → ran2 ≠ [] →
           run_epochs ran1 toy_decay_state = Ok s → ¬ stop_condition s).
Proof.
  split; [exact toy_decay_fit|].
  apply (@fit_stops_exactly_when toy_decay toy_decay_state toy_decay_final).
  exact toy_decay_fit.
Defined.

(** On that run the learning rate is 5e-8 after the second epoch, and the
    loop leaves the epochs 3, 4 and 5 out. *)
Lemma toy_decay_stops_after_two :
  @epoch_range toy_decay = [1; 2; 3; 4; 5]%nat
  ∧ lr toy_decay_final = lit 5e-8
  ∧ saved_epochs (@latest_model_path toy_decay) (log toy_decay_final) = [1; 2]%nat.
Proof.
  split; [reflexivity|].
  split; apply (bool_decide_unpack _); vm_compute; reflexivity.
Qed.

(** ** The train step *)

Lemma sum_list_shares (d : Qc) (l : list Qc) :
  sum_list ((λ x, x / d) <$> l) = sum_list l / d.
Proof.
  unfold sum_list, Qcdiv. induction l as [|a l IH]; cbn [fmap list_fmap foldr]; [ring|].
  rewrite IH. ring.
Qed.

Section TrainStepFacts.
Context `{Pipeline}.

(** One batch: when the pyramid loss is a number [w] and the loader is not
    empty, the body of the loop succeeds. *)
Lemma train_batch_scored n (st : state) avg noisy_image clear_image (w : Qc) :
  (0 < n)%nat →
  _compute_wavelets_loss (model (training st) (params st) noisy_image).1.2 clear_image 1
  = Ok (Some w) →
  let px := pixel_loss (model (training st) (params st) noisy_image).1.1 clear_image in
  let total := px + w * lit 0.2 in
  train_batch n (st, avg) (noisy_image, clear_image)
  = Ok (optimizer_do_step
          (clip_grads 2
             (backward (total_loss_of (training st) noisy_image clear_image) total
                (emit [Forward; Scored PixelLoss px; Scored WaveletPyramidLoss w]
                   (zero_grad st)))),
        avg + px / of_nat n).
Proof.
  intros Hn Hw px total. unfold train_batch.
  change (training (zero_grad st)) with (training st).
  change (params (zero_grad st)) with (params st).
  unfold batch_losses. rewrite Hw. cbn [mbind result_bind].
  change (training (emit _ (zero_grad st))) with (training st).
  by rewrite truediv_ok by by apply of_nat_nonzero.
Qed.

(** One batch, the other way round: when the body succeeds, the pyramid
    loss was a number. *)
Lemma train_batch_inv n (st st' : state) avg avg' noisy_image clear_image :
  train_batch n (st, avg) (noisy_image, clear_image) = Ok (st', avg') →
  ∃ w, _compute_wavelets_loss (model (training st) (params st) noisy_image).1.2
         clear_image 1 = Ok (Some w)
       ∧ (0 < n)%nat.
Proof.
  unfold train_batch.
  change (training (zero_grad st)) with (training st).
  change (params (zero_grad st)) with (params st).
  unfold batch_losses.
  destruct (_compute_wavelets_loss _ _ _) as [[w|]|e]; [|done|done].
  cbn [mbind result_bind]. unfold truediv. case_decide as Hn; [done|].
  intros _. exists w. split; [done|]. destruct n; [|lia].
  exfalso. apply Hn. by apply Qc_is_canon.
Qed.

(** An empty pyramid from the network: the pyramid loss is [None], and
      [wloss * 0.2] raises a [TypeError]. *)
Lemma batch_losses_empty_pyramid mode noisy_image clear_image (p : Params) :
  (model mode p noisy_image).1.2 = [] →
  batch_losses mode noisy_image clear_image p = Raise TypeError.
Proof. intros Hpyr. unfold batch_losses. by rewrite Hpyr. Qed.

Lemma log_optimizer_do_step (st : state) :
  log (optimizer_do_step st) = log st ++ [OptimizerStep].
Proof. unfold optimizer_do_step. by destruct (optimizer_step _ _ _ _). Qed.

Lemma log_after_batch f (px w total : Qc) (st : state) :
  log (optimizer_do_step
         (clip_grads 2
            (backward f total
               (emit [Forward; Scored PixelLoss px; Scored WaveletPyramidLoss w]
                  (zero_grad st)))))
  = log st ++ [ZeroGrad; Forward; Scored PixelLoss px; Scored WaveletPyramidLoss w;
               Backward total; ClipGradNorm 2; OptimizerStep].
Proof. rewrite log_optimizer_do_step. cbn. by rewrite <- !(assoc_L (++)). Qed.

(** The whole loop over the batches of an epoch. *)
Lemma train_loop_spec n batches (st st' : state) (avg avg' : Qc) :
  train_loop n batches (st, avg) = Ok (st', avg') →
  let losses := epoch_losses n batches st in
  length losses = length batches
  ∧ log st' = log st ++ concat (batch_events <$> losses)
  ∧ avg' = avg + sum_list ((λ l, l.1 / of_nat n) <$> losses).
Proof.
  revert st avg. induction batches as [|[noisy clear] rest IH]; intros st avg Hloop.
  - injection Hloop as <- <-. cbn. split; [done|]. split; [by rewrite app_nil_r|].
    unfold sum_list. cbn. ring.
  - cbn [train_loop] in Hloop.
    destruct (train_batch n (st, avg) (noisy, clear)) as [[s1 a1]|e] eqn:Hb; [|done].
    cbn [mbind result_bind] in Hloop.
    destruct (train_batch_inv _ _ _ _ _ _ _ Hb) as (w & Hw & Hn).
    pose proof (train_batch_scored n st avg noisy clear w Hn Hw) as Hb1.
    pose proof (train_batch_scored n st 0 noisy clear w Hn Hw) as Hb0.
    cbn zeta in Hb1, Hb0. rewrite Hb1 in Hb. injection Hb as <- <-.
    destruct (IH _ _ Hloop) as (Hlen & Hlog & Havg). clear IH.
    cbn [epoch_losses]. rewrite Hw, Hb0. cbn zeta.
    split; [cbn [length]; by rewrite Hlen|]. split.
    + rewrite Hlog, log_after_batch. cbn [fmap list_fmap concat].
      unfold batch_events at 2. cbn [fst snd].
      rewrite <- (assoc_L (++)). do 2 f_equal.
      replace (pixel_loss (model (training st) (params st) noisy).1.1 clear
               + lit 0.2 * w)
        with (pixel_loss (model (training st) (params st) noisy).1.1 clear
              + w * lit 0.2) by ring.
      done.
    + rewrite Havg. cbn [fmap list_fmap fst]. unfold sum_list. cbn [foldr]. ring.
Qed.

(** C5. For a batch whose pyramid loss is the number [w], the loss handed
    to [backward] is the pixel loss plus 0.2 times [w], the pixel loss being
    the image criterion, or half of it plus half of the perceptual loss when
    there is one; the gradients start from zero, are clipped to norm 2 and
    only then used by the optimizer step. *)
Theorem train_batch_total_loss n (st : state) avg noisy_image clear_image (w : Qc) :
  (0 < n)%nat →
  _compute_wavelets_loss (model (training st) (params st) noisy_image).1.2 clear_image 1
  = Ok (Some w) →
  let pred_image := (model (training st) (params st) noisy_image).1.1 in
  let px := match perceptual_loss with
            | Some perceptual =>
                images_criterion pred_image clear_image / 2
                + perceptual pred_image clear_image / 2
            | None => images_criterion pred_image clear_image
            end in
  ∃ st',
    train_batch n (st, avg) (noisy_image, clear_image) = Ok (st', avg + px / of_nat n)
    ∧ total_loss_of (training st) noisy_image clear_image (params st)
      = Ok (px + lit 0.2 * w)
    ∧ new_events st st'
      = [ZeroGrad; Forward; Scored PixelLoss px; Scored WaveletPyramidLoss w;
         Backward (px + lit 0.2 * w); ClipGradNorm 2; OptimizerStep]
    ∧ (optim_state st', params st')
      = optimizer_step (lr st) (optim_state st) (params st)
          (clip_grad_norm_
             (autograd (total_loss_of (training st) noisy_image clear_image)
                (params st) no_grads) 2).
Proof.
  intros Hn Hw pred_image px.
  assert (Hpx : px = pixel_loss pred_image clear_image) by done.
  assert (Htot : px + lit 0.2 * w = px + w * lit 0.2) by ring.
  eexists. split; [rewrite Hpx; by apply train_batch_scored|]. split; [|split].
  - unfold total_loss_of, batch_losses. rewrite Hw. cbn [mbind result_bind snd].
    fold pred_image. rewrite <- Hpx. by rewrite Htot.
  - unfold new_events. rewrite log_after_batch, drop_app_length.
    fold pred_image. rewrite <- Hpx. by rewrite Htot.
  - unfold optimizer_do_step. cbn [clip_grads backward emit zero_grad lr optim_state
      params grads training].
    by destruct (optimizer_step _ _ _ _).
Qed.


(** C10. The average that a train step returns is the sum of the pixel
    losses of its batches over the number of batches; the pyramid losses,
    which enter every loss handed to [backward] with weight 0.2, do not
    enter it. *)
Theorem train_step_reports_pixel_average epoch (st st' : state) (avg : Qc) :
  _train_step epoch st = Ok (avg, st') →
  let batches := train_dataloader epoch in
  let losses := epoch_losses (length batches) batches (model_train st) in
  length losses = length batches
  ∧ avg = sum_list (fst <$> losses) / of_nat (length batches)
  ∧ backward_totals (new_events st st') = (λ l, l.1 + lit 0.2 * l.2) <$> losses.
Proof.
  intros Hstep batches losses. unfold _train_step in Hstep.
  destruct (train_loop _ _ _) as [[s a]|e] eqn:Hloop; [|done].
  cbn [mbind result_bind] in Hstep. injection Hstep as <- <-.
  destruct (train_loop_spec _ _ _ _ _ _ Hloop) as (Hlen & Hlog & Havg).
  fold batches in Hlen, Hlog, Havg. fold losses in Hlen, Hlog, Havg.
  split; [exact Hlen|]. split.
  - rewrite Havg, <- sum_list_shares, <- list_fmap_compose.
    unfold compose. cbn beta. ring.
  - unfold new_events. rewrite Hlog. cbn [log model_train].
    rewrite <- (assoc_L (++)), drop_app_length. clear.
    unfold backward_totals. cbn [app omap list_omap].
    induction losses as [|l losses IH]; [done|].
    cbn [fmap list_fmap concat]. rewrite omap_app, IH. done.
Qed.
End TrainStepFacts.

(** ** The train step on the stand-in pipeline *)

Lemma toy_noisy_train_step_ok : is_ok (@_train_step toy_noisy 1 toy_noisy_state) = true.
Proof. vm_compute. reflexivity. Qed.

Lemma toy_noisy_train_step :
  @_train_step toy_noisy 1 toy_noisy_state = Ok toy_noisy_trained.
Proof.
  pose proof toy_noisy_train_step_ok as Hok. unfold toy_noisy_trained.
  by destruct (@_train_step toy_noisy 1 toy_noisy_state).
Qed.

Lemma toy_noisy_wloss_scored :
  _compute_wavelets_loss
    (@model toy_noisy (training toy_noisy_state) (params toy_noisy_state)
       image_2x2_noisy).1.2 image_2x2 1
  = Ok (Some toy_noisy_wloss).
Proof.
  unfold toy_noisy_wloss. change (training toy_noisy_state) with false.
  change (params toy_noisy_state) with (1 : Qc). change (@model toy_noisy) with toy_model.
  assert (Hok : match _compute_wavelets_loss (toy_model false 1 image_2x2_noisy).1.2
                        image_2x2 1 with Ok (Some _) => true | _ => false end = true)
    by (vm_compute; reflexivity).
  by destruct (_compute_wavelets_loss _ _ _) as [[?|]|?].
Qed.

Lemma train_batch_total_loss_witness :
  (0 < 2)%nat
  ∧ _compute_wavelets_loss
      (@model toy_noisy (training toy_noisy_state) (params toy_noisy_state)
         image_2x2_noisy).1.2 image_2x2 1
    = Ok (Some toy_noisy_wloss)
  ∧ let pred_image :=
      (@model toy_noisy (training toy_noisy_state) (params toy_noisy_state)
         image_2x2_noisy).1.1 in
    let px := @images_criterion toy_noisy pred_image image_2x2 / 2
              + l1_loss pred_image image_2x2 / 2 in
    ∃ st',
      @train_batch toy_noisy 2 (toy_noisy_state, 0) (image_2x2_noisy, image_2x2)
      = Ok (st', 0 + px / of_nat 2)
      ∧ @total_loss_of toy_noisy (training toy_noisy_state) image_2x2_noisy image_2x2
          (params toy_noisy_state)
        = Ok (px + lit 0.2 * toy_noisy_wloss)
      ∧ new_events toy_noisy_state st'
        = [ZeroGrad; Forward; Scored PixelLoss px;
           Scored WaveletPyramidLoss toy_noisy_wloss;
           Backward (px + lit 0.2 * toy_noisy_wloss); ClipGradNorm 2; OptimizerStep]
      ∧ (optim_state st', params st')
        = @optimizer_step toy_noisy (lr toy_noisy_state) (optim_state toy_noisy_state)
            (params toy_noisy_state)
            (@clip_grad_norm_ toy_noisy
               (@autograd toy_noisy
                  (@total_loss_of toy_noisy (training toy_noisy_state)
                     image_2x2_noisy image_2x2)
                  (params toy_noisy_state) (@no_grads toy_noisy)) 2).
Proof.
  split; [lia|]. split; [exact toy_noisy_wloss_scored|].
  apply (@train_batch_total_loss toy_noisy 2 toy_noisy_state 0
           image_2x2_noisy image_2x2 toy_noisy_wloss);
    [lia|exact toy_noisy_wloss_scored].
Defined.


Lemma train_step_reports_pixel_average_witness :
  @_train_step toy_noisy 1 toy_noisy_state = Ok toy_noisy_trained
  ∧ let batches := @train_dataloader toy_noisy 1 in
    let losses := epoch_losses (length batches) batches (model_train toy_noisy_state) in
    length losses = length batches
    ∧ toy_noisy_trained.1 = sum_list (fst <$> losses) / of_nat (length batches)
    ∧ backward_totals (new_events toy_noisy_state toy_noisy_trained.2)
      = (λ l, l.1 + lit 0.2 * l.2) <$> losses.
Proof.
  split; [exact toy_noisy_train_step|].
  apply (@train_step_reports_pixel_average toy_noisy 1 toy_noisy_state
           toy_noisy_trained.2 toy_noisy_trained.1).
  exact toy_noisy_train_step.
Defined.

(** On that epoch the two are different numbers: the reported average and
    the mean of the losses handed to [backward]. *)
Lemma toy_noisy_average_excludes_pyramid :
  toy_noisy_trained.1
  ≠ sum_list (backward_totals (log toy_noisy_trained.2)) / of_nat 2.
Proof. apply (bool_decide_unpack _). vm_compute. reflexivity. Qed.




(** * Further facts *)

(** Order on [Qc] by linear arithmetic on the fractions. *)
Ltac qc_to_q :=
  unfold lit, Qcle, Qclt, Qcminus, Qcopp, Qcplus, Qcmult in *;
  cbn [this Q2Qc] in *;
  repeat match goal with
  | H : context [Qred ?q] |- _ =>
      lazymatch q with
      | context [this _] => rewrite (Qred_correct q) in H
      | _ => let v := eval vm_compute in (Qred q) in change (Qred q) with v in H
      end
  | |- context [Qred ?q] =>
      lazymatch q with
      | context [this _] => rewrite (Qred_correct q)
      | _ => let v := eval vm_compute in (Qred q) in change (Qred q) with v
      end
  end.
Ltac qc_lra := qc_to_q; lra.

(** ** The wrappers [DWTHaar] and [IWTHaar] *)

Lemma four_slices_app {A} (n : nat) (s : list A) :
  take (n - 0) (drop 0 s) ++ take (n * 2 - n) (drop n s)
    ++ take (n * 3 - n * 2) (drop (n * 2) s) ++ drop (n * 3) s = s.
Proof.
  replace (n - 0)%nat with n by lia. replace (n * 2 - n)%nat with n by lia.
  replace (n * 3 - n * 2)%nat with n by lia.
  replace (n * 3)%nat with (n * 2 + n)%nat by lia. rewrite <- (drop_drop s n (n * 2)).
  rewrite take_drop. replace (n * 2)%nat with (n + n)%nat by lia.
  rewrite <- (drop_drop s n n), take_drop. rewrite drop_0. apply take_drop.
Qed.

Lemma torch_cat1_slices (n : nat) (out : tensor) :
  torch_cat1 [slice1 0 n out; slice1 n (n * 2) out; slice1 (n * 2) (n * 3) out;
              slice1_from (n * 3) out] = out.
Proof.
  unfold torch_cat1, slice1, slice1_from. rewrite !zip_with_fmap_same.
  transitivity (id <$> out); [|apply list_fmap_id].
  apply list_fmap_ext. intros i s _. apply four_slices_app.
Qed.

(** X1. The four tensors that [DWTHaar.forward] cuts out of the output of
    the Haar transform lose nothing: concatenated along the channel axis, as
    [IWTHaar.forward] does, they are that output again, whatever its channel
    count. So [IWTHaar] after [DWTHaar] is the inverse transform after the
    forward transform. *)
Theorem DWTHaar_split_lossless (x ll lh hl hh : tensor) :
  DWTHaar_forward x = Ok (ll, lh, hl, hh) →
  HaarForward x = Ok (torch_cat1 [ll; lh; hl; hh])
  ∧ IWTHaar_forward ll lh hl hh = (out ← HaarForward x; HaarInverse out).
Proof.
  unfold DWTHaar_forward, IWTHaar_forward.
  destruct (HaarForward x) as [out|e]; [|done]. cbn [mbind result_bind].
  intros [= <- <- <- <-]. by rewrite torch_cat1_slices.
Qed.

Lemma DWTHaar_split_lossless_witness :
  DWTHaar_forward image_2x4
  = Ok (band_tensor mix_pppp image_2x4, band_tensor mix_ppmm image_2x4,
        band_tensor mix_pmpm image_2x4, band_tensor mix_pmmp image_2x4)
  ∧ HaarForward image_2x4
    = Ok (torch_cat1 [band_tensor mix_pppp image_2x4; band_tensor mix_ppmm image_2x4;
                      band_tensor mix_pmpm image_2x4; band_tensor mix_pmmp image_2x4])
  ∧ IWTHaar_forward (band_tensor mix_pppp image_2x4) (band_tensor mix_ppmm image_2x4)
      (band_tensor mix_pmpm image_2x4) (band_tensor mix_pmmp image_2x4)
    = (out ← HaarForward image_2x4; HaarInverse out).
Proof.
  split; [reflexivity|].
  apply (DWTHaar_split_lossless image_2x4). reflexivity.
Defined.

(** ** What the pyramid loss computes *)

Lemma Qcpower_add (f : Qc) (a b : nat) : f ^ (a + b) = f ^ a * f ^ b.
Proof. induction a as [|a IH]; cbn [Nat.add Qcpower]; [ring|]. rewrite IH. ring. Qed.

Lemma scale_exponent_step (k L : nat) :
  (k < L)%nat → scale_exponent k L = (k + scale_exponent (S k) L)%nat.
Proof.
  intros Hk. unfold scale_exponent.
  replace (L - k)%nat with (S (L - S k)) by lia. done.
Qed.

Lemma scale_exponent_end (k : nat) : scale_exponent k k = 0%nat.
Proof. unfold scale_exponent. by rewrite Nat.sub_diag. Qed.

Lemma accumulate_closed (f : Qc) (k : nat) (a : Qc) (ls : list Qc) :
  accumulate f (f ^ k) (Some a) ls
  = Some (a * f ^ scale_exponent k (k + length ls)
          + loop_sum_from f k (k + length ls) ls).
Proof.
  revert k a. induction ls as [|l ls IH]; intros k a.
  - cbn [accumulate length loop_sum_from]. rewrite Nat.add_0_r, scale_exponent_end.
    apply (f_equal Some). cbn [Qcpower]. ring.
  - cbn [accumulate _add_loss length loop_sum_from].
    replace (f ^ k * f) with (f ^ S k) by (cbn [Qcpower]; ring).
    rewrite IH. replace (S k + length ls)%nat with (k + S (length ls))%nat by lia.
    rewrite (scale_exponent_step k (k + S (length ls))) by lia.
    rewrite Qcpower_add. apply (f_equal Some). ring.
Qed.

Lemma loop_sum_from_imap (f : Qc) (k L : nat) (ls : list Qc) :
  loop_sum_from f k L ls
  = sum_list (imap (λ i l, l * f ^ scale_exponent (k + i) L) ls).
Proof.
  revert k. induction ls as [|l ls IH]; intros k; [done|].
  cbn [loop_sum_from imap]. unfold sum_list. cbn [foldr]. fold (sum_list).
  rewrite Nat.add_0_r, IH. do 2 f_equal. apply imap_ext. intros i x _.
  unfold compose. by rewrite Nat.add_succ_r.
Qed.

Lemma level_losses_length pyr gt ls : level_losses pyr gt = Ok ls → length ls = length pyr.
Proof.
  revert gt ls. induction pyr as [|lvl pyr IH]; intros gt ls Hls.
  - by injection Hls as <-.
  - cbn [level_losses] in Hls.
    destruct (DWTHaar_forward gt) as [[[[gt_ll gt_lh] gt_hl] gt_hh]|e]; [|done].
    cbn [mbind result_bind] in Hls.
    destruct (level_losses pyr gt_ll) as [ls'|e] eqn:Hrest; [|done].
    cbn [mbind result_bind] in Hls. injection Hls as <-.
    cbn [length]. f_equal. by eapply IH.
Qed.

(** X2. What [_compute_wavelets_loss] returns for any factor: with the
    per-level losses [l_0 .. l_(L-1)] of a pyramid of [L >= 1] levels, the
    sum of [l_i * factor ^ (i + (i + 1) + ... + (L - 1))]. *)
Theorem compute_wavelets_loss_closed_form pyr gt (factor : Qc) ls :
  pyr ≠ [] → level_losses pyr gt = Ok ls →
  _compute_wavelets_loss pyr gt factor = Ok (Some (loop_sum factor ls)).
Proof.
  intros Hne Hls. unfold _compute_wavelets_loss.
  rewrite (wavelets_loss_loop_accumulate _ _ _ _ _ ls Hls). f_equal.
  pose proof (level_losses_length _ _ _ Hls) as Hlen.
  destruct ls as [|l ls]; [by destruct pyr|].
  cbn [accumulate _add_loss].
  replace (1 * factor) with (factor ^ 1) by (cbn [Qcpower]; ring).
  rewrite accumulate_closed. apply (f_equal Some).
  unfold loop_sum. cbn [imap length]. unfold sum_list. cbn [foldr]. fold sum_list.
  rewrite loop_sum_from_imap.
  rewrite (scale_exponent_step 0 (S (length ls))) by lia. cbn [Nat.add].
  replace (l * 1) with l by ring. f_equal.
Qed.

Lemma compute_wavelets_loss_closed_form_witness :
  pyramid_unit_losses ≠ []
  ∧ level_losses pyramid_unit_losses gt_zero8 = Ok [1; 1; 1]
  ∧ _compute_wavelets_loss pyramid_unit_losses gt_zero8 (lit 0.5)
    = Ok (Some (loop_sum (lit 0.5) [1; 1; 1])).
Proof.
  split; [done|]. split; [exact level_losses_unit|].
  apply (compute_wavelets_loss_closed_form pyramid_unit_losses gt_zero8 (lit 0.5) [1; 1; 1]);
    [done|exact level_losses_unit].
Defined.

Lemma wavelets_loss_loop_details pyr pyr' gt acc (scale factor : Qc) :
  Forall2 same_details pyr pyr' →
  wavelets_loss_loop pyr gt acc scale factor = wavelets_loss_loop pyr' gt acc scale factor.
Proof.
  intros Hd. revert gt acc scale.
  induction Hd as [|a b pyr pyr' Hab _ IH]; intros gt acc scale; [done|].
  cbn [wavelets_loss_loop].
  destruct (DWTHaar_forward gt) as [[[[gt_ll gt_lh] gt_hl] gt_hh]|e]; [|done].
  cbn [mbind result_bind]. unfold same_details in Hab. rewrite Hab. apply IH.
Qed.

(** X3. The pyramid loss reads the detail channels [[:, 3:]] of the predicted
    levels only: two pyramids that differ in their approximation channels
    alone get the same loss, for every ground truth and factor. *)
Theorem compute_wavelets_loss_ignores_approximation pyr pyr' gt (factor : Qc) :
  Forall2 same_details pyr pyr' →
  _compute_wavelets_loss pyr gt factor = _compute_wavelets_loss pyr' gt factor.
Proof. intros Hd. by apply wavelets_loss_loop_details. Qed.

Lemma pyramid_unit_losses_same_details :
  Forall2 same_details pyramid_unit_losses pyramid_unit_losses'.
Proof. repeat constructor. Defined.

Lemma compute_wavelets_loss_ignores_approximation_witness :
  Forall2 same_details pyramid_unit_losses pyramid_unit_losses'
  ∧ _compute_wavelets_loss pyramid_unit_losses gt_zero8 (lit 0.5)
    = _compute_wavelets_loss pyramid_unit_losses' gt_zero8 (lit 0.5).
Proof.
  split; [exact pyramid_unit_losses_same_details|].
  apply (compute_wavelets_loss_ignores_approximation pyramid_unit_losses
           pyramid_unit_losses' gt_zero8 (lit 0.5)).
  exact pyramid_unit_losses_same_details.
Defined.

(** ** The adversarial pyramid loss *)

Lemma adversarial_loss_loop_from fs pyr gt (acc scale factor : Qc) ls :
  adversarial_level_losses fs pyr gt = Ok ls →
  adversarial_loss_loop fs pyr gt acc scale factor
  = Ok (acc + weighted_from factor scale ls).
Proof.
  revert fs gt acc scale ls. induction pyr as [|lvl pyr IH]; intros fs gt acc scale ls Hls.
  - injection Hls as <-. cbn [adversarial_loss_loop weighted_from].
    apply (f_equal Ok). ring.
  - cbn [adversarial_level_losses adversarial_loss_loop] in *.
    destruct (DWTHaar_forward gt) as [[[[gt_ll gt_lh] gt_hl] gt_hh]|e]; [|done].
    cbn [mbind result_bind] in *. destruct fs as [|f fs]; [done|].
    destruct (adversarial_level_losses fs pyr gt_ll) as [ls'|e] eqn:Hrest; [|done].
    cbn [mbind result_bind] in Hls. injection Hls as <-.
    rewrite (IH _ _ _ _ _ Hrest). apply (f_equal Ok). cbn [weighted_from].
    change (zip_with app gt_lh (zip_with app gt_hl gt_hh))
      with (torch_cat1 [gt_lh; gt_hl; gt_hh]).
    ring.
Qed.

(** X4. The loop of [_compute_adversarial_loss], for any list of scoring
    functions under [self.adverserial_losses] that has one per level (the
    assignment of that attribute in [__init__] is commented out), returns
    the weighted sum of the per-level scores, level [i] times [factor ^ i]:
    the decay that the loop of [_compute_wavelets_loss] does not produce. *)
Theorem compute_adversarial_loss_weighted fs pyr gt (factor : Qc) ls :
  adversarial_level_losses fs pyr gt = Ok ls →
  _compute_adversarial_loss fs pyr gt factor = Ok (weighted_sum factor ls).
Proof.
  intros Hls. unfold _compute_adversarial_loss.
  rewrite (adversarial_loss_loop_from _ _ _ _ _ _ ls Hls), weighted_from_spec.
  apply (f_equal Ok). ring.
Qed.

Lemma adversarial_level_losses_unit :
  adversarial_level_losses [SmoothL1Loss; SmoothL1Loss; SmoothL1Loss]
    pyramid_unit_losses gt_zero8 = Ok [1; 1; 1].
Proof. apply (bool_decide_unpack _). vm_compute. reflexivity. Qed.

Lemma compute_adversarial_loss_weighted_witness :
  adversarial_level_losses [SmoothL1Loss; SmoothL1Loss; SmoothL1Loss]
    pyramid_unit_losses gt_zero8 = Ok [1; 1; 1]
  ∧ _compute_adversarial_loss [SmoothL1Loss; SmoothL1Loss; SmoothL1Loss]
      pyramid_unit_losses gt_zero8 (lit 0.5)
    = Ok (weighted_sum (lit 0.5) [1; 1; 1]).
Proof.
  split; [exact adversarial_level_losses_unit|].
  apply (compute_adversarial_loss_weighted [SmoothL1Loss; SmoothL1Loss; SmoothL1Loss]
           pyramid_unit_losses gt_zero8 (lit 0.5) [1; 1; 1]).
  exact adversarial_level_losses_unit.
Defined.

(** ** The deep inverse reconstruction: errors and what it reads *)

Lemma mapM_result_raise {A B} (f : A → result B) (l : list A) (e : exn) :
  mapM_result f l = Raise e → ∃ a, a ∈ l ∧ f a = Raise e.
Proof.
  induction l as [|a l IH]; [done|]. cbn [mapM_result].
  destruct (f a) as [b|e'] eqn:Hfa; cbn [mbind result_bind].
  - destruct (mapM_result f l) as [bs|e'] eqn:Hl; [done|].
    cbn [mbind result_bind]. intros [= ->]. destruct IH as (a' & Hin & Ha'); [done|].
    exists a'. split; [by right|done].
  - intros [= ->]. exists a. split; [by left|done].
Qed.

Lemma HaarInverse_raise (x : tensor) (e : exn) : HaarInverse x = Raise e → e = ShapeError.
Proof.
  intros (s & _ & Hs)%mapM_result_raise. unfold haar_inverse_sample in Hs.
  case_decide; [done|]. by injection Hs.
Qed.

Lemma deep_iwt_loop_raise (levels : list tensor) (composed : tensor) (e : exn) :
  deep_iwt_loop levels composed = Raise e → e = ValueError ∨ e = ShapeError.
Proof.
  revert composed. induction levels as [|lvl levels IH]; intros composed; [done|].
  cbn [deep_iwt_loop]. unfold torch_split3_unpack4. case_decide; cbn [mbind result_bind].
  - unfold IWTHaar_forward. destruct (HaarInverse _) as [y|e'] eqn:Hy.
    + cbn [mbind result_bind]. apply IH.
    + cbn [mbind result_bind]. intros [= ->]. right. by eapply HaarInverse_raise.
  - intros [= <-]. by left.
Qed.

Lemma slices_of_details (a : tensor) :
  slice1 3 6 a = fmap (M := list) (take 3) (slice1_from 3 a)
  ∧ slice1 6 9 a = fmap (M := list) (λ s, take 3 (drop 3 s)) (slice1_from 3 a)
  ∧ slice1_from 9 a = fmap (M := list) (drop 6) (slice1_from 3 a).
Proof.
  unfold slice1, slice1_from. rewrite <- !list_fmap_compose.
  repeat split; apply list_fmap_ext; intros i s _; unfold compose;
    rewrite ?drop_drop; done.
Qed.

Lemma deep_iwt_loop_details (levels levels' : list tensor) (composed : tensor) :
  Forall2 same_count_and_details levels levels' →
  deep_iwt_loop levels composed = deep_iwt_loop levels' composed.
Proof.
  intros Hd. revert composed.
  induction Hd as [|a b levels levels' [Hc Hab] _ IH]; intros composed; [done|].
  cbn [deep_iwt_loop]. unfold torch_split3_unpack4. rewrite Hc.
  destruct (slices_of_details a) as (-> & -> & ->).
  destruct (slices_of_details b) as (-> & -> & ->). rewrite Hab.
  case_decide; cbn [mbind result_bind]; [|done].
  destruct (IWTHaar_forward _ _ _ _) as [y|e]; cbn [mbind result_bind]; [apply IH|done].
Qed.

Section DeepInverseFacts.
Context `{Pipeline}.

(** X5. [_compute_deep_iwt_loss] raises an [IndexError] exactly on the empty
    pyramid, where [pred_wavelets_pyramid[-1]] has nothing to index; the
    pyramid loss returns [None] there instead. *)
Theorem compute_deep_iwt_loss_index_error (pyr : list tensor) (gt_image : tensor) :
  _compute_deep_iwt_loss pyr gt_image = Raise IndexError ↔ pyr = [].
Proof.
  unfold _compute_deep_iwt_loss, deep_iwt_composed_image. split; [|by intros ->].
  destruct (reverse pyr) as [|deepest finer] eqn:Hrev.
  - intros _. apply (f_equal reverse) in Hrev. by rewrite reverse_involutive in Hrev.
  - destruct (deep_iwt_loop _ _) as [y|e] eqn:Hloop; cbn [mbind result_bind]; [done|].
    intros [= ->]. by destruct (deep_iwt_loop_raise _ _ _ Hloop).
Qed.

(** X6. The deep inverse reconstruction reads the approximation channels of
    the deepest level only: two pyramids with the same channel counts and
    detail channels at every level, and the same approximation channels at
    the deepest, get the same loss, whatever the approximation channels of
    the finer levels are. *)
Theorem compute_deep_iwt_loss_ignores_finer_approximation
    (pyr pyr' : list tensor) (gt_image : tensor) :
  Forall2 same_count_and_details pyr pyr' →
  slice1 0 3 <$> head (reverse pyr) = slice1 0 3 <$> head (reverse pyr') →
  _compute_deep_iwt_loss pyr gt_image = _compute_deep_iwt_loss pyr' gt_image.
Proof.
  intros Hd Hdeep. unfold _compute_deep_iwt_loss, deep_iwt_composed_image.
  apply Forall2_reverse in Hd.
  destruct Hd as [|a b finer finer' Hab Hd]; [done|].
  cbn [head fmap option_fmap option_map] in Hdeep. injection Hdeep as ->.
  by rewrite (deep_iwt_loop_details (a :: finer) (b :: finer')) by by constructor.
Qed.
End DeepInverseFacts.

Lemma flat_pyramid2_same_details (v : Qc) :
  Forall2 same_count_and_details (flat_pyramid2 v) (flat_pyramid2' v).
Proof. repeat constructor. Defined.

Lemma compute_deep_iwt_loss_ignores_finer_approximation_witness :
  Forall2 same_count_and_details (flat_pyramid2 (lit 5)) (flat_pyramid2' (lit 5))
  ∧ slice1 0 3 <$> head (reverse (flat_pyramid2 (lit 5)))
    = slice1 0 3 <$> head (reverse (flat_pyramid2' (lit 5)))
  ∧ @_compute_deep_iwt_loss toy_clean (flat_pyramid2 (lit 5)) (const_tensor 1 3 4 4 0)
    = @_compute_deep_iwt_loss toy_clean (flat_pyramid2' (lit 5)) (const_tensor 1 3 4 4 0).
Proof.
  split; [exact (flat_pyramid2_same_details (lit 5))|]. split; [reflexivity|].
  apply (@compute_deep_iwt_loss_ignores_finer_approximation toy_clean
           (flat_pyramid2 (lit 5)) (flat_pyramid2' (lit 5)) (const_tensor 1 3 4 4 0));
    [exact (flat_pyramid2_same_details (lit 5))|reflexivity].
Defined.

(** ** [MIXLoss] *)

Lemma Qc_abs_nonneg (x : Qc) : 0 ≤ Qc_abs x.
Proof. unfold Qc_abs. case_decide as Hx; [done|]. apply Qcnot_le_lt in Hx. qc_lra. Qed.

Lemma sum_list_nonneg (l : list Qc) : Forall (λ x, 0 ≤ x) l → 0 ≤ sum_list l.
Proof.
  induction 1 as [|x l Hx _ IH]; [done|]. unfold sum_list in *. cbn [foldr].
  set (s := foldr Qcplus 0 l) in *. qc_lra.
Qed.

Lemma of_nat_nonneg (n : nat) : 0 ≤ of_nat n.
Proof.
  unfold of_nat, Qc_of_Z, Qcle. cbn [this Q2Qc].
  change (Qred 0) with (0%Q). unfold Qle, inject_Z. cbn [Qnum Qden]. lia.
Qed.

Lemma Qcdiv_nonneg (a b : Qc) : 0 ≤ a → 0 ≤ b → 0 ≤ a / b.
Proof.
  intros Ha Hb. unfold Qcdiv, Qcinv, Qcmult, Qcle in *. cbn [this Q2Qc] in *.
  rewrite !Qred_correct. apply Qmult_le_0_compat; [done|].
  by apply Qinv_le_0_compat.
Qed.

Lemma l1_loss_nonneg (x y : tensor) : 0 ≤ l1_loss x y.
Proof.
  unfold l1_loss, mean. apply Qcdiv_nonneg; [|apply of_nat_nonneg].
  apply sum_list_nonneg. generalize (entries y).
  induction (entries x) as [|a l IH]; intros [|b k]; cbn [zip_with]; try constructor.
  - apply Qc_abs_nonneg.
  - apply IH.
Qed.

Section MIXLossFacts.
Context `{Pipeline}.

(** X7. Where the structural similarity is at most 1, [MIXLoss] is not
    negative, and it is 0 exactly when the similarity is 1 and the mean
    absolute error is 0. *)
Theorem MIXLoss_forward_zero_iff (x y : tensor) :
  ms_ssim x y ≤ 1 →
  0 ≤ MIXLoss_forward x y
  ∧ (MIXLoss_forward x y = 0 ↔ ms_ssim x y = 1 ∧ l1_loss x y = 0).
Proof.
  intros Hm. pose proof (l1_loss_nonneg x y) as Hl. unfold MIXLoss_forward.
  set (m := ms_ssim x y) in *. set (l := l1_loss x y) in *. clearbody m l.
  split; [qc_lra|]. split.
  - intros Hz. apply (f_equal this) in Hz.
    assert (Hq : (this ((1 - m) * (1 - lit 0.84) + l * lit 0.84) == this 0)%Q)
      by (by rewrite Hz).
    clear Hz. split; apply Qc_is_canon; qc_lra.
  - intros [-> ->]. apply Qc_is_canon. qc_lra.
Qed.
End MIXLossFacts.

Lemma MIXLoss_forward_zero_iff_witness :
  @ms_ssim toy_clean image_2x2 image_2x2_noisy ≤ 1
  ∧ 0 ≤ @MIXLoss_forward toy_clean image_2x2 image_2x2_noisy
  ∧ (@MIXLoss_forward toy_clean image_2x2 image_2x2_noisy = 0
     ↔ @ms_ssim toy_clean image_2x2 image_2x2_noisy = 1
       ∧ l1_loss image_2x2 image_2x2_noisy = 0).
Proof.
  split; [done|].
  apply (@MIXLoss_forward_zero_iff toy_clean image_2x2 image_2x2_noisy). done.
Defined.

(** ** The validation step in full *)

Section ValidationMore.
Context `{Pipeline}.

Lemma emit_nil (st : state) : emit [] st = st.
Proof. destruct st. unfold emit. cbn. by rewrite app_nil_r. Qed.

Lemma emit_emit (a b : list event) (st : state) : emit b (emit a st) = emit (a ++ b) st.
Proof. unfold emit. cbn. by rewrite (assoc_L (++)). Qed.

(** The sample loop: only the log grows, and the three accumulators take
    the sums and the count. *)
Lemma validation_fold items (st : state) (a l : Qc) (n : nat) :
  foldl validation_sample (st, (a, l, n)) items
  = (emit (val_image_event <$> items) st,
     (a + sum_list (val_acc (params st) <$> items),
      l + sum_list (val_loss (params st) <$> items),
      (n + length items)%nat)).
Proof.
  revert st a l n. induction items as [|[[x y] name] items IH]; intros st a l n.
  - cbn [foldl fmap list_fmap length]. rewrite emit_nil, Nat.add_0_r.
    unfold sum_list. cbn [foldr]. by rewrite !Qcplus_0_r.
  - cbn [foldl validation_sample]. rewrite IH, emit_emit.
    cbn [fmap list_fmap length]. unfold sum_list. cbn [foldr].
    change (params (emit _ st)) with (params st).
    rewrite !Qcplus_assoc, Nat.add_succ_r. done.
Qed.

(** What the step returns, whatever the dataset. *)
Lemma validation_step_spec (st : state) :
  let p := params st in
  let st1 := emit (val_image_event <$> val_items) (model_eval st) in
  _validation_step st
  = Ok (mean (val_loss p <$> val_items), mean (val_acc p <$> val_items),
        match scheduler st with
        | Some s => scheduler_do_step s st1
        | None => st1
        end).
Proof.
  intros p st1. unfold _validation_step.
  assert (Hfold : match val_dataset with
                  | Some items => foldl validation_sample (model_eval st, (0, 0, 0%nat)) items
                  | None => (model_eval st, (0, 0, 0%nat))
                  end
                  = (st1, (sum_list (val_acc p <$> val_items),
                           sum_list (val_loss p <$> val_items), length val_items))).
  { unfold st1, val_items. destruct val_dataset as [items|].
    - rewrite validation_fold. cbn [Nat.add]. by rewrite !Qcplus_0_l.
    - cbn [fmap list_fmap length]. by rewrite emit_nil. }
  rewrite Hfold. clear Hfold. unfold mean. rewrite !length_fmap.
  change (scheduler st1) with (scheduler st).
  case_decide as Hn.
  - rewrite !truediv_ok by (by apply of_nat_nonzero). done.
  - cbn [mbind result_bind]. destruct (val_items) as [|item items]; [|cbn in Hn; lia].
    cbn [fmap list_fmap length]. unfold sum_list. cbn [foldr].
    replace (0 / of_nat 0) with (0 : Qc) by (by apply Qc_is_canon). done.
Qed.

(** X8. Over a validation dataset that is not empty the step returns the
    arithmetic means of the losses and of the accuracies of its samples,
    all restored with the parameters the step starts from. *)
Theorem validation_step_means (st : state) items :
  val_dataset = Some items → items ≠ [] →
  ∃ st',
    _validation_step st
    = Ok (sum_list (val_loss (params st) <$> items) / of_nat (length items),
          sum_list (val_acc (params st) <$> items) / of_nat (length items), st').
Proof.
  intros Hval Hne. rewrite validation_step_spec. unfold val_items. rewrite Hval.
  unfold mean. rewrite !length_fmap. by eexists.
Qed.

(** X9. The validation step never raises. It leaves the parameters, the
    gradients, the optimizer state, the best score and the checkpoint files
    as they were and the network in eval mode; it saves one image per
    sample, in the order of the dataset, and then steps the scheduler, if
    there is one, once. *)
Theorem validation_step_frame (st : state) :
  ∃ val_loss val_acc st',
    _validation_step st = Ok (val_loss, val_acc, st')
    ∧ params st' = params st ∧ grads st' = grads st
    ∧ optim_state st' = optim_state st
    ∧ best_test_score st' = best_test_score st ∧ files st' = files st
    ∧ training st' = false
    ∧ new_events st st'
      = ModelEval :: (val_image_event <$> val_items)
          ++ match scheduler st with Some _ => [SchedulerStep] | None => [] end
    ∧ (scheduler st = None → scheduler st' = None ∧ lr st' = lr st).
Proof.
  rewrite validation_step_spec. do 3 eexists. split; [reflexivity|].
  unfold new_events. destruct (scheduler st) as [s|] eqn:Hs.
  - unfold scheduler_do_step. destruct (MultiStepLR_step s _) as [s' lr'].
    cbn. repeat split; try done.
    by rewrite <- !(assoc_L (++)), drop_app_length.
  - cbn. repeat split; try done.
    by rewrite app_nil_r, <- !(assoc_L (++)), drop_app_length.
Qed.
End ValidationMore.

Lemma validation_step_means_witness :
  @val_dataset toy_val = Some toy_val_items ∧ toy_val_items ≠ []
  ∧ ∃ st',
      @_validation_step toy_val toy_val_state
      = Ok (sum_list (val_loss (params toy_val_state) <$> toy_val_items)
              / of_nat (length toy_val_items),
            sum_list (val_acc (params toy_val_state) <$> toy_val_items)
              / of_nat (length toy_val_items), st').
Proof.
  split; [reflexivity|]. split; [done|].
  apply (@validation_step_means toy_val toy_val_state toy_val_items); [reflexivity|done].
Defined.

(** ** The train step: what it leaves alone, and when it fails *)

Section TrainStepMore.
Context `{Pipeline}.

Lemma train_batch_frame n (st st' : state) (avg avg' : Qc) batch :
  train_batch n (st, avg) batch = Ok (st', avg') →
  lr st' = lr st ∧ scheduler st' = scheduler st
  ∧ best_test_score st' = best_test_score st ∧ files st' = files st
  ∧ training st' = training st.
Proof.
  destruct batch as [noisy clear]. intros Hb.
  destruct (train_batch_inv _ _ _ _ _ _ _ Hb) as (w & Hw & Hn).
  rewrite (train_batch_scored n st avg noisy clear w Hn Hw) in Hb.
  injection Hb as <- _. unfold optimizer_do_step.
  by destruct (optimizer_step _ _ _ _).
Qed.

Lemma train_loop_frame n batches (st st' : state) (avg avg' : Qc) :
  train_loop n batches (st, avg) = Ok (st', avg') →
  lr st' = lr st ∧ scheduler st' = scheduler st
  ∧ best_test_score st' = best_test_score st ∧ files st' = files st
  ∧ training st' = training st.
Proof.
  revert st avg. induction batches as [|batch rest IH]; intros st avg Hloop.
  - by injection Hloop as <- <-.
  - cbn [train_loop] in Hloop.
    destruct (train_batch n (st, avg) batch) as [[s1 a1]|e] eqn:Hb; [|done].
    cbn [mbind result_bind] in Hloop.
    destruct (train_batch_frame _ _ _ _ _ _ Hb) as (E1 & E2 & E3 & E4 & E5).
    destruct (IH s1 a1 Hloop) as (F1 & F2 & F3 & F4 & F5).
    repeat split; congruence.
Qed.

(** X10. A train step that returns has changed the parameters, the
    gradients and the optimizer state at most: the learning rate, the
    scheduler, the best score and the checkpoint files are as before, and
    the network is left in train mode. *)
Theorem train_step_frame epoch (st st' : state) (avg : Qc) :
  _train_step epoch st = Ok (avg, st') →
  lr st' = lr st ∧ scheduler st' = scheduler st
  ∧ best_test_score st' = best_test_score st ∧ files st' = files st
  ∧ training st' = true.
Proof.
  unfold _train_step. intros Hstep.
  destruct (train_loop _ _ _) as [[s a]|e] eqn:Hloop; [|done].
  cbn [mbind result_bind] in Hstep. injection Hstep as <- <-.
  by apply train_loop_frame in Hloop.
Qed.

(** X11. When the network returns an empty pyramid for the first batch of
    the loader, the train step raises a [TypeError]: the pyramid loss is
    [None], and [wloss * 0.2] has no value. *)
Theorem train_step_empty_pyramid_type_error epoch (st : state) noisy_image clear_image rest :
  train_dataloader epoch = (noisy_image, clear_image) :: rest →
  (model true (params st) noisy_image).1.2 = [] →
  _train_step epoch st = Raise TypeError.
Proof.
  intros Hloader Hpyr. unfold _train_step. rewrite Hloader.
  cbn [train_loop train_batch length].
  change (training (zero_grad (model_train st))) with true.
  change (params (zero_grad (model_train st))) with (params st).
  by rewrite batch_losses_empty_pyramid.
Qed.

(** X12. The losses of a training batch do not depend on the approximation
    channels of the predicted pyramid: two parameter settings under which
    the network returns the same image and the same detail channels get the
    same pixel loss, pyramid loss and total loss. Training never scores the
    approximation channels. *)
Theorem batch_losses_ignore_approximation mode noisy_image clear_image (p p' : Params) :
  (model mode p noisy_image).1.1 = (model mode p' noisy_image).1.1 →
  Forall2 same_details (model mode p noisy_image).1.2 (model mode p' noisy_image).1.2 →
  batch_losses mode noisy_image clear_image p
  = batch_losses mode noisy_image clear_image p'.
Proof.
  intros Himg Hd. unfold batch_losses, _compute_wavelets_loss.
  by rewrite Himg, (wavelets_loss_loop_details _ _ _ _ _ _ Hd).
Qed.
End TrainStepMore.

Lemma toy_val_train_step_ok : is_ok (@_train_step toy_val 1 toy_val_state) = true.
Proof. vm_compute. reflexivity. Qed.

Lemma train_step_frame_witness :
  ∃ avg st',
    @_train_step toy_val 1 toy_val_state = Ok (avg, st')
    ∧ lr st' = lr toy_val_state ∧ scheduler st' = scheduler toy_val_state
    ∧ best_test_score st' = best_test_score toy_val_state
    ∧ files st' = files toy_val_state ∧ training st' = true.
Proof.
  pose proof toy_val_train_step_ok as Hok.
  destruct (@_train_step toy_val 1 toy_val_state) as [[avg st']|e] eqn:Hstep; [|done].
  exists avg, st'. split; [reflexivity|].
  exact (@train_step_frame toy_val 1 toy_val_state st' avg Hstep).
Defined.

Lemma train_step_empty_pyramid_type_error_witness :
  @train_dataloader toy_no_pyramid 1 = (image_2x2, image_2x2) :: []
  ∧ (@model toy_no_pyramid true 1 image_2x2).1.2 = []
  ∧ @_train_step toy_no_pyramid 1 (toy_state toy_no_pyramid 1 () 0 (lit 0.0001) None)
    = Raise TypeError.
Proof.
  split; [reflexivity|]. split; [reflexivity|].
  apply (@train_step_empty_pyramid_type_error toy_no_pyramid 1
           (toy_state toy_no_pyramid 1 () 0 (lit 0.0001) None) image_2x2 image_2x2 []);
    reflexivity.
Defined.

Lemma toy_approx_same_details :
  Forall2 same_details (@model toy_approx true 1 image_2x2).1.2
    (@model toy_approx true (lit 7) image_2x2).1.2.
Proof. repeat constructor. Defined.

Lemma batch_losses_ignore_approximation_witness :
  (@model toy_approx true 1 image_2x2).1.1 = (@model toy_approx true (lit 7) image_2x2).1.1
  ∧ Forall2 same_details (@model toy_approx true 1 image_2x2).1.2
      (@model toy_approx true (lit 7) image_2x2).1.2
  ∧ @batch_losses toy_approx true image_2x2 image_2x2 1
    = @batch_losses toy_approx true image_2x2 image_2x2 (lit 7).
Proof.
  split; [reflexivity|]. split; [exact toy_approx_same_details|].
  apply (@batch_losses_ignore_approximation toy_approx true image_2x2 image_2x2 1 (lit 7));
    [reflexivity|exact toy_approx_same_details].
Defined.

(** ** Epochs and checkpoints *)

Section EpochFacts.
Context `{Pipeline}.

Lemma saved_epochs_app path (l1 l2 : list event) :
  saved_epochs path (l1 ++ l2) = saved_epochs path l1 ++ saved_epochs path l2.
Proof. apply omap_app. Qed.

Lemma saved_epochs_batches path (ls : list (Qc * Qc)) :
  saved_epochs path (concat (batch_events <$> ls)) = [].
Proof.
  induction ls as [|l ls IH]; [done|].
  cbn [fmap list_fmap concat]. by rewrite saved_epochs_app, IH.
Qed.

Lemma saved_epochs_images path (items : list (sample * sample * string)) :
  saved_epochs path (val_image_event <$> items) = [].
Proof. induction items as [|item items IH]; [done|]. exact IH. Qed.

(** The train step and the validation step of an epoch: what they leave
    alone, and that they save no checkpoint. *)
Lemma run_epoch_inv epoch (st st' : state) :
  run_epoch epoch st = Ok st' →
  ∃ val_acc s2 l,
    st' = _save_best_checkpoint epoch val_acc s2
    ∧ best_test_score s2 = best_test_score st ∧ files s2 = files st
    ∧ (scheduler st = None → scheduler s2 = None ∧ lr s2 = lr st)
    ∧ log s2 = log st ++ l ∧ (∀ path, saved_epochs path l = []).
Proof.
  unfold run_epoch, _train_step. intros Hrun.
  destruct (train_loop _ _ _) as [[s1 avg]|e] eqn:Ht; [|done].
  cbn [mbind result_bind] in Hrun. rewrite validation_step_spec in Hrun.
  cbn [mbind result_bind] in Hrun. injection Hrun as <-.
  destruct (train_loop_frame _ _ _ _ _ _ Ht) as (E1 & E2 & E3 & E4 & _).
  destruct (train_loop_spec _ _ _ _ _ _ Ht) as (_ & Elog & _).
  cbn [model_train lr scheduler best_test_score files log] in E1, E2, E3, E4, Elog.
  destruct (scheduler s1) as [s|] eqn:Hs.
  - eexists _, _, _. split; [reflexivity|].
    unfold scheduler_do_step. destruct (MultiStepLR_step s _) as [s' lr'].
    cbn [emit model_eval best_test_score files log scheduler lr].
    split; [done|]. split; [done|]. split; [by rewrite <- E2|].
    split; [rewrite Elog, <- !(assoc_L (++)); reflexivity|].
    intros path. by rewrite !saved_epochs_app, saved_epochs_batches, saved_epochs_images.
  - eexists _, _, _. split; [reflexivity|].
    cbn [emit model_eval best_test_score files log scheduler lr].
    split; [done|]. split; [done|]. split; [done|].
    split; [rewrite Elog, <- !(assoc_L (++)); reflexivity|].
    intros path. by rewrite !saved_epochs_app, saved_epochs_batches, saved_epochs_images.
Qed.

(** The accuracy under which an epoch saves is the one its validation step
    returned. *)
Lemma run_epoch_steps epoch (st st' : state) :
  run_epoch epoch st = Ok st' →
  ∃ avg s1 val_loss val_acc s2,
    _train_step epoch st = Ok (avg, s1)
    ∧ _validation_step s1 = Ok (val_loss, val_acc, s2)
    ∧ st' = _save_best_checkpoint epoch val_acc s2.
Proof.
  unfold run_epoch. intros Hrun.
  destruct (_train_step epoch st) as [[avg s1]|e] eqn:Ht; [|done].
  cbn [mbind result_bind] in Hrun.
  destruct (_validation_step s1) as [[[vl va] s2]|e] eqn:Hv; [|done].
  cbn [mbind result_bind] in Hrun. injection Hrun as <-.
  by exists avg, s1, vl, va, s2.
Qed.

Lemma run_epochs_app es1 es2 (st : state) :
  run_epochs (es1 ++ es2) st = (s ← run_epochs es1 st; run_epochs es2 s).
Proof.
  revert st. induction es1 as [|e es1 IH]; intros st; [done|].
  cbn [app run_epochs]. destruct (run_epoch e st) as [s|err]; [|done].
  cbn [mbind result_bind]. apply IH.
Qed.

(** A relation that every epoch keeps is kept by any run of epochs. *)
Lemma run_epochs_keeps (R : state → state → Prop) :
  (∀ s, R s s) → (∀ a b c, R a b → R b c → R a c) →
  (∀ e s s', run_epoch e s = Ok s' → R s s') →
  ∀ es s s', run_epochs es s = Ok s' → R s s'.
Proof.
  intros Hrefl Htrans Hstep es. induction es as [|e es IH]; intros s s' Hrun.
  - injection Hrun as <-. apply Hrefl.
  - cbn [run_epochs] in Hrun. destruct (run_epoch e s) as [s1|err] eqn:He; [|done].
    cbn [mbind result_bind] in Hrun. eapply Htrans; [by eapply Hstep|by apply IH].
Qed.

Lemma fit_runs_prefix (st st' : state) :
  fit st = Ok st' → ∃ ran rest, epoch_range = ran ++ rest ∧ run_epochs ran st = Ok st'
                                ∧ (epoch_range ≠ [] → ran ≠ []).
Proof.
  intros (ran & rest & Hr & Hran & Hrest & _)%fit_loop_prefix.
  exists ran, rest. split; [done|]. split; [done|]. intros Hne.
  destruct rest as [|e rest]; [by rewrite Hr, app_nil_r in Hne|].
  destruct Hrest as [Hran' _]; done.
Qed.

Lemma save_best_frame epoch acc (st : state) :
  let st' := _save_best_checkpoint epoch acc st in
  params st' = params st ∧ grads st' = grads st ∧ optim_state st' = optim_state st
  ∧ lr st' = lr st ∧ scheduler st' = scheduler st ∧ training st' = false.
Proof.
  intros st'. subst st'. unfold _save_best_checkpoint. cbn -[Qclt]. by case_decide.
Qed.

Lemma save_best_latest epoch acc (st : state) :
  files (_save_best_checkpoint epoch acc st) !! latest_model_path
  = Some (mkCheckpoint (params st) (optim_state st, lr st) acc epoch).
Proof.
  pose proof best_latest_differ as Hne.
  destruct (decide (best_test_score st - acc < - lit 1e-5)) as [Hlt|Hlt].
  - rewrite save_best_improved by done. cbn.
    rewrite lookup_insert_ne by done. by rewrite lookup_insert_eq.
  - rewrite save_best_not_improved by done. cbn. by rewrite lookup_insert_eq.
Qed.

Lemma save_best_score_le epoch acc (st : state) :
  best_test_score st ≤ best_test_score (_save_best_checkpoint epoch acc st).
Proof.
  rewrite save_best_score. case_decide as Hlt; [|apply Qcle_refl].
  set (b := best_test_score st) in *. clearbody b. qc_lra.
Qed.

Lemma save_best_consistent epoch acc (st : state) :
  best_consistent st → best_consistent (_save_best_checkpoint epoch acc st).
Proof.
  pose proof best_latest_differ as Hne. intros Hc ck.
  destruct (decide (best_test_score st - acc < - lit 1e-5)) as [Hlt|Hlt].
  - rewrite save_best_improved by done. cbn. rewrite lookup_insert_eq. by intros [= <-].
  - rewrite save_best_not_improved by done. cbn. rewrite lookup_insert_ne by done.
    apply Hc.
Qed.

Lemma run_epoch_score_le epoch (st st' : state) :
  run_epoch epoch st = Ok st' → best_test_score st ≤ best_test_score st'.
Proof.
  intros (va & s2 & l & -> & Hb & _)%run_epoch_inv.
  rewrite <- Hb. apply save_best_score_le.
Qed.

Lemma run_epoch_consistent epoch (st st' : state) :
  run_epoch epoch st = Ok st' → best_consistent st → best_consistent st'.
Proof.
  intros (va & s2 & l & -> & Hb & Hf & _)%run_epoch_inv Hc.
  apply save_best_consistent. unfold best_consistent. by rewrite Hb, Hf.
Qed.

Lemma run_epoch_no_scheduler epoch (st st' : state) :
  run_epoch epoch st = Ok st' → scheduler st = None →
  scheduler st' = None ∧ lr st' = lr st.
Proof.
  intros (va & s2 & l & -> & _ & _ & Hs & _)%run_epoch_inv Hnone.
  destruct (Hs Hnone) as [Hs2 Hlr2].
  destruct (save_best_frame epoch va s2) as (_ & _ & _ & Hlr & Hsch & _).
  split; congruence.
Qed.

Lemma fit_loop_no_scheduler es (st : state) :
  scheduler st = None → fit_loop es st = run_epochs es st.
Proof.
  revert st. induction es as [|e es IH]; intros st Hnone; [done|].
  cbn [fit_loop run_epochs]. destruct (run_epoch e st) as [s|err] eqn:He; [|done].
  cbn [mbind result_bind].
  destruct (run_epoch_no_scheduler _ _ _ He Hnone) as [Hs _].
  unfold stop_now. rewrite Hs. cbn [bool_decide andb].
  rewrite bool_decide_eq_false_2 by (by intros [? ?]). cbn [andb]. by apply IH.
Qed.

Lemma run_epoch_log epoch (st st' : state) :
  run_epoch epoch st = Ok st' →
  ∃ l, log st' = log st ++ l
       ∧ saved_epochs latest_model_path l = [epoch]
       ∧ saved_epochs best_model_path l `sublist_of` [epoch].
Proof.
  pose proof best_latest_differ as Hne.
  intros (va & s2 & l & -> & _ & _ & _ & Hlog & Hq)%run_epoch_inv.
  rewrite save_best_log, Hlog. eexists. split; [rewrite <- !(assoc_L (++)); reflexivity|].
  rewrite !saved_epochs_app, !Hq. cbn [app].
  assert (Hne' : latest_model_path ≠ best_model_path) by done.
  case_decide; cbn [saved_epochs omap list_omap app];
    rewrite ?(decide_True (P := latest_model_path = latest_model_path)) by done;
    rewrite ?(decide_True (P := best_model_path = best_model_path)) by done;
    rewrite ?(decide_False (P := latest_model_path = best_model_path)) by done;
    rewrite ?(decide_False (P := best_model_path = latest_model_path)) by done;
    cbn [app]; (split; [done|]).
  - reflexivity.
  - apply sublist_nil_l.
Qed.

Lemma run_epochs_log es (st st' : state) :
  run_epochs es st = Ok st' →
  ∃ l, log st' = log st ++ l
       ∧ saved_epochs latest_model_path l = es
       ∧ saved_epochs best_model_path l `sublist_of` es.
Proof.
  revert st. induction es as [|e es IH]; intros st Hrun.
  - injection Hrun as <-. exists []. by rewrite app_nil_r.
  - cbn [run_epochs] in Hrun. destruct (run_epoch e st) as [s|err] eqn:He; [|done].
    cbn [mbind result_bind] in Hrun.
    destruct (run_epoch_log _ _ _ He) as (l1 & Hl1 & Hlast1 & Hbest1).
    destruct (IH _ Hrun) as (l2 & Hl2 & Hlast2 & Hbest2).
    exists (l1 ++ l2). split; [by rewrite Hl2, Hl1, (assoc_L (++))|].
    rewrite !saved_epochs_app, Hlast1, Hlast2. split; [done|].
    change (e :: es) with ([e] ++ es). by apply sublist_app.
Qed.

(** X13. Over a run of [fit] the best score never goes down. *)
Theorem fit_best_score_monotone (st st' : state) :
  fit st = Ok st' → best_test_score st ≤ best_test_score st'.
Proof.
  intros (ran & rest & _ & Hran & _)%fit_runs_prefix. revert Hran.
  apply (run_epochs_keeps (λ s s', best_test_score s ≤ best_test_score s')).
  - intros s. apply Qcle_refl.
  - intros a b c. apply Qcle_trans.
  - apply run_epoch_score_le.
Qed.

(** X14. If the record under [best.trh], when there is one, carries the
    best score before [fit], it does so when [fit] returns: the best file
    and the best score are only ever changed together. *)
Theorem fit_best_file_consistent (st st' : state) :
  fit st = Ok st' → best_consistent st → best_consistent st'.
Proof.
  intros (ran & rest & _ & Hran & _)%fit_runs_prefix. revert Hran.
  apply (run_epochs_keeps (λ s s', best_consistent s → best_consistent s')).
  - done.
  - intros a b c Hab Hbc Ha. by apply Hbc, Hab.
  - apply run_epoch_consistent.
Qed.

(** X15. Without a scheduler [fit] never stops early: it does what running
    every epoch of [range(resume_epoch, epochs + 1)] does, failing where
    that fails, and when it returns there is still no scheduler and the
    learning rate is the one it started with. *)
Theorem fit_without_scheduler_runs_every_epoch (st : state) :
  scheduler st = None →
  fit st = run_epochs epoch_range st
  ∧ ∀ st', fit st = Ok st' → scheduler st' = None ∧ lr st' = lr st.
Proof.
  intros Hnone. unfold fit. rewrite fit_loop_no_scheduler by done.
  split; [done|]. intros st'. revert Hnone.
  generalize epoch_range as es. intros es. revert st.
  induction es as [|e es IH]; intros st Hnone Hrun.
  - by injection Hrun as <-.
  - cbn [run_epochs] in Hrun. destruct (run_epoch e st) as [s|err] eqn:He; [|done].
    cbn [mbind result_bind] in Hrun.
    destruct (run_epoch_no_scheduler _ _ _ He Hnone) as [Hs Hlr].
    destruct (IH s Hs Hrun) as [Hs' Hlr']. split; congruence.
Qed.

(** X16. When [fit] returns after a range of epochs that is not empty,
    [last.trh] holds the parameters, the optimizer state and the learning
    rate the trainer ends with, under the number of the last epoch that
    ran and with the accuracy the validation step of that epoch returned,
    and the network is in eval mode. The epochs that ran are an initial
    part of the numbers from [resume_epoch] up to [epochs]. *)
Theorem fit_last_checkpoint_is_final_state (st st' : state) :
  fit st = Ok st' → (resume_epoch ≤ epochs)%nat →
  ∃ ran e rest s avg s1 val_loss acc s2,
    seq resume_epoch (epochs + 1 - resume_epoch) = ran ++ e :: rest
    ∧ run_epochs (ran ++ [e]) st = Ok st'
    ∧ run_epochs ran st = Ok s
    ∧ _train_step e s = Ok (avg, s1)
    ∧ _validation_step s1 = Ok (val_loss, acc, s2)
    ∧ files st' !! latest_model_path
      = Some (mkCheckpoint (params st') (optim_state st', lr st') acc e)
    ∧ training st' = false.
Proof.
  intros (ran & rest & Hr & Hran & Hne)%fit_runs_prefix Hle.
  assert (Hran_ne : ran ≠ []).
  { apply Hne. unfold epoch_range.
    replace (epochs + 1 - resume_epoch)%nat with (S (epochs - resume_epoch)) by lia.
    done. }
  destruct (exists_last Hran_ne) as (ran0 & e & ->).
  pose proof Hran as Hall. rewrite run_epochs_app in Hran.
  destruct (run_epochs ran0 st) as [s|err] eqn:Hs; [|done].
  cbn [mbind result_bind run_epochs] in Hran.
  destruct (run_epoch e s) as [s'|err] eqn:He; [|done].
  cbn [mbind result_bind] in Hran. injection Hran as ->.
  apply run_epoch_steps in He as (avg & s1 & vl & va & s2 & Ht & Hv & ->).
  destruct (save_best_frame e va s2) as (Hp & _ & Ho & Hlr & _ & Htr).
  exists ran0, e, rest, s, avg, s1, vl, va, s2.
  split; [unfold epoch_range in Hr; by rewrite Hr, <- (assoc_L (++))|].
  split; [exact Hall|]. split; [exact Hs|]. split; [exact Ht|]. split; [exact Hv|].
  split; [|exact Htr]. rewrite save_best_latest. by rewrite Hp, Ho, Hlr.
Qed.

(** X17. Over a run of [fit] that returns, the epochs that ran are an
    initial part [ran] of the numbers from [resume_epoch] up to [epochs];
    [last.trh] is written once for each of them, in order, and the epochs
    at which [best.trh] is written are some of them, in the same order.
    Checkpoints are written nowhere else. *)
Theorem fit_saves_once_per_epoch (st st' : state) :
  fit st = Ok st' →
  ∃ ran rest,
    seq resume_epoch (epochs + 1 - resume_epoch) = ran ++ rest
    ∧ run_epochs ran st = Ok st'
    ∧ saved_epochs latest_model_path (new_events st st') = ran
    ∧ saved_epochs best_model_path (new_events st st') `sublist_of` ran.
Proof.
  intros (ran & rest & Hr & Hran & _)%fit_runs_prefix.
  destruct (run_epochs_log _ _ _ Hran) as (l & Hl & Hlast & Hbest).
  exists ran, rest. split; [exact Hr|]. split; [exact Hran|].
  unfold new_events. by rewrite Hl, drop_app_length.
Qed.

(** X18. When the trainer resumes past the last epoch the loop of [fit]
    has nothing to run: it returns at once, with nothing trained and
    nothing saved. *)
Theorem fit_resumed_past_the_end (st : state) :
  (epochs < resume_epoch)%nat → fit st = Ok st.
Proof.
  intros Hlt. unfold fit, epoch_range.
  by replace (epochs + 1 - resume_epoch)%nat with 0%nat by lia.
Qed.
End EpochFacts.

Lemma toy_val_fit_ok : is_ok (@fit toy_val toy_val_state) = true.
Proof. vm_compute. reflexivity. Qed.

Lemma toy_val_fit : @fit toy_val toy_val_state = Ok toy_val_final.
Proof.
  pose proof toy_val_fit_ok as Hok. unfold toy_val_final.
  by destruct (@fit toy_val toy_val_state).
Qed.

Lemma toy_val_scored_fit_ok : is_ok (@fit toy_val toy_val_scored_state) = true.
Proof. vm_compute. reflexivity. Qed.

Lemma toy_val_scored_fit : @fit toy_val toy_val_scored_state = Ok toy_val_scored_final.
Proof.
  pose proof toy_val_scored_fit_ok as Hok. unfold toy_val_scored_final.
  by destruct (@fit toy_val toy_val_scored_state).
Qed.

(** On the run from [toy_val_state] the first epoch scores about 0.973 and
    takes the best score from 0; the second does not beat it by 1e-5, so
    [best.trh] is written at epoch 1 only and [last.trh] at both. *)
Lemma toy_val_run :
  best_test_score toy_val_state < best_test_score toy_val_final
  ∧ saved_epochs (@best_model_path toy_val) (new_events toy_val_state toy_val_final)
    = [1]%nat
  ∧ saved_epochs (@latest_model_path toy_val) (new_events toy_val_state toy_val_final)
    = [1; 2]%nat.
Proof.
  split; [|split]; apply (bool_decide_unpack _); vm_compute; reflexivity.
Qed.

(** The run from [toy_val_scored_state] replaces the record of 0.5 under
    [best.trh] at epoch 1 and raises the best score. *)
Lemma toy_val_scored_run :
  best_test_score toy_val_scored_state < best_test_score toy_val_scored_final
  ∧ saved_epochs (@best_model_path toy_val)
      (new_events toy_val_scored_state toy_val_scored_final) = [1]%nat.
Proof.
  split; apply (bool_decide_unpack _); vm_compute; reflexivity.
Qed.

Lemma toy_val_scored_consistent : @best_consistent toy_val toy_val_scored_state.
Proof.
  intros ck Hck. unfold toy_val_scored_state in Hck. cbn [files] in Hck.
  apply lookup_singleton_Some in Hck as [_ <-]. reflexivity.
Defined.

Lemma fit_best_score_monotone_witness :
  @fit toy_val toy_val_state = Ok toy_val_final
  ∧ best_test_score toy_val_state ≤ best_test_score toy_val_final
  ∧ best_test_score toy_val_state ≠ best_test_score toy_val_final.
Proof.
  split; [exact toy_val_fit|]. split.
  - apply (@fit_best_score_monotone toy_val toy_val_state toy_val_final).
    exact toy_val_fit.
  - exact (Qclt_not_eq _ _ (proj1 toy_val_run)).
Defined.

Lemma fit_best_file_consistent_witness :
  @fit toy_val toy_val_scored_state = Ok toy_val_scored_final
  ∧ @best_consistent toy_val toy_val_scored_state
  ∧ @best_consistent toy_val toy_val_scored_final
  ∧ is_Some (files toy_val_scored_state !! @best_model_path toy_val)
  ∧ saved_epochs (@best_model_path toy_val)
      (new_events toy_val_scored_state toy_val_scored_final) = [1]%nat.
Proof.
  split; [exact toy_val_scored_fit|]. split; [exact toy_val_scored_consistent|]. split.
  - apply (@fit_best_file_consistent toy_val toy_val_scored_state toy_val_scored_final);
      [exact toy_val_scored_fit|exact toy_val_scored_consistent].
  - split; [|exact (proj2 toy_val_scored_run)].
    unfold toy_val_scored_state. cbn [files]. rewrite lookup_singleton_eq. by eexists.
Defined.

Lemma fit_without_scheduler_runs_every_epoch_witness :
  scheduler toy_val_state = None
  ∧ @fit toy_val toy_val_state = @run_epochs toy_val (@epoch_range toy_val) toy_val_state
  ∧ ∀ st', @fit toy_val toy_val_state = Ok st'
           → scheduler st' = None ∧ lr st' = lr toy_val_state.
Proof.
  split; [reflexivity|].
  apply (@fit_without_scheduler_runs_every_epoch toy_val toy_val_state). reflexivity.
Defined.

Lemma fit_last_checkpoint_is_final_state_witness :
  @fit toy_val toy_val_state = Ok toy_val_final
  ∧ (@resume_epoch toy_val ≤ @epochs toy_val)%nat
  ∧ ∃ ran e rest s avg s1 val_loss acc s2,
      seq (@resume_epoch toy_val) (@epochs toy_val + 1 - @resume_epoch toy_val)
      = ran ++ e :: rest
      ∧ run_epochs (ran ++ [e]) toy_val_state = Ok toy_val_final
      ∧ run_epochs ran toy_val_state = Ok s
      ∧ _train_step e s = Ok (avg, s1)
      ∧ _validation_step s1 = Ok (val_loss, acc, s2)
      ∧ files toy_val_final !! @latest_model_path toy_val
        = Some (mkCheckpoint (params toy_val_final)
                  (optim_state toy_val_final, lr toy_val_final) acc e)
      ∧ training toy_val_final = false.
Proof.
  split; [exact toy_val_fit|]. split; [cbn; lia|].
  apply (@fit_last_checkpoint_is_final_state toy_val toy_val_state toy_val_final);
    [exact toy_val_fit|cbn; lia].
Defined.

Lemma fit_saves_once_per_epoch_witness :
  @fit toy_val toy_val_state = Ok toy_val_final
  ∧ (∃ ran rest,
      seq (@resume_epoch toy_val) (@epochs toy_val + 1 - @resume_epoch toy_val)
      = ran ++ rest
      ∧ run_epochs ran toy_val_state = Ok toy_val_final
      ∧ saved_epochs (@latest_model_path toy_val)
          (new_events toy_val_state toy_val_final) = ran
      ∧ saved_epochs (@best_model_path toy_val)
          (new_events toy_val_state toy_val_final) `sublist_of` ran)
  ∧ saved_epochs (@best_model_path toy_val) (new_events toy_val_state toy_val_final)
    = [1]%nat
  ∧ saved_epochs (@latest_model_path toy_val) (new_events toy_val_state toy_val_final)
    = [1; 2]%nat.
Proof.
  split; [exact toy_val_fit|]. split; [|exact (proj2 toy_val_run)].
  apply (@fit_saves_once_per_epoch toy_val toy_val_state toy_val_final).
  exact toy_val_fit.
Defined.

Lemma fit_resumed_past_the_end_witness :
  (@epochs toy_resumed_late < @resume_epoch toy_resumed_late)%nat
  ∧ @fit toy_resumed_late toy_resumed_late_state = Ok toy_resumed_late_state.
Proof.
  split; [cbn; lia|].
  apply (@fit_resumed_past_the_end toy_resumed_late toy_resumed_late_state). cbn; lia.
Defined.
